(** * json_flatten: flatten / unflatten of JSON-like trees

    Shallow embedding of [scripts/json_flatten.py] and the properties of
    its two transforms, [flatten] and [unflatten], and of the dispatch in
    [process_file]. *)

From Stdlib Require Import List String Ascii ZArith Lia Bool Arith PeanoNat.
From Stdlib Require Import DecimalString DecimalNat Decimal.
Import ListNotations.
Local Open Scope list_scope.
Local Open Scope string_scope.

(** ** Values

    The values [json.load] produces: [None], [bool], numbers, [str],
    [list] and [dict].  A [dict] keeps its insertion order, so it is an
    association list; Python guarantees its keys are unique, which is the
    predicate [dict_wf] below.  Numbers are never inspected by the
    transforms; they are carried as integers. *)

#[local] Unset Elimination Schemes.
Inductive json : Type :=
| JNull : json
| JBool : bool -> json
| JNum : Z -> json
| JStr : string -> json
| JList : list json -> json
| JDict : list (string * json) -> json.

#[local] Set Elimination Schemes.

Definition dict := list (string * json).

(** [isinstance(v, dict)] and [isinstance(v, list)]. *)
Definition is_dict (v : json) : bool :=
  match v with JDict _ => true | _ => false end.

Definition is_list (v : json) : bool :=
  match v with JList _ => true | _ => false end.

Definition is_scalar (v : json) : bool :=
  match v with JDict _ | JList _ => false | _ => true end.

(** ** Python [dict] operations on association lists *)

(** [k in d] *)
Fixpoint dict_mem (k : string) (d : dict) : bool :=
  match d with
  | [] => false
  | (k', _) :: d' => if String.eqb k k' then true else dict_mem k d'
  end.

(** [d[k]], for a key that is present; [None] stands for [KeyError]. *)
Fixpoint dict_get (k : string) (d : dict) : option json :=
  match d with
  | [] => None
  | (k', v) :: d' => if String.eqb k k' then Some v else dict_get k d'
  end.

(** [d[k] = v]: an existing key keeps its position, a new one goes last. *)
Fixpoint dict_set (d : dict) (k : string) (v : json) : dict :=
  match d with
  | [] => [(k, v)]
  | (k', v') :: d' =>
      if String.eqb k k' then (k', v) :: d' else (k', v') :: dict_set d' k v
  end.

(** [d.update(other)] *)
Definition dict_update (d other : dict) : dict :=
  fold_left (fun r kv => dict_set r (fst kv) (snd kv)) other d.

Definition dict_keys (d : dict) : list string := map fst d.

Definition dict_wf (d : dict) : Prop := NoDup (dict_keys d).

(** ** Strings: [str(i)], [split], and the digits of ASCII

    A [string] holds the UTF-8 bytes of a Python [str]: joining,
    comparing, [startswith], [in] and [split] on the bytes are these
    operations on the characters, and a [str] of ASCII characters has
    one byte for each.  [str.isdigit] and [int] depend on the Unicode
    tables and on the limits of the interpreter; they are parameters of
    [unflatten] below, and what is defined here is their behaviour on
    ASCII. *)

(** [str(i)] for a list index. *)
Definition str (i : nat) : string := NilEmpty.string_of_uint (Nat.to_uint i).

Definition is_digit_char (c : ascii) : bool :=
  let n := nat_of_ascii c in ((48 <=? n) && (n <=? 57))%nat.

Fixpoint all_digits (s : string) : bool :=
  match s with
  | EmptyString => true
  | String c s' => is_digit_char c && all_digits s'
  end.

(** At least one character, all of them among [0] to [9]: [s.isdigit()]
    for a [str] of ASCII characters. *)
Definition ascii_isdigit (s : string) : bool :=
  match s with
  | EmptyString => false
  | _ => all_digits s
  end.

Fixpoint int_acc (acc : nat) (s : string) : nat :=
  match s with
  | EmptyString => acc
  | String c s' => int_acc (10 * acc + (nat_of_ascii c - 48))%nat s'
  end.

(** The number a text of the digits [0] to [9] writes in base ten. *)
Definition ascii_value (s : string) : nat := int_acc 0%nat s.

Definition is_ascii_char (c : ascii) : bool := (nat_of_ascii c <? 128)%nat.

(** [s.isascii()] *)
Fixpoint is_ascii (s : string) : bool :=
  match s with
  | EmptyString => true
  | String c s' => is_ascii_char c && is_ascii s'
  end.

(** [sys.int_info.default_max_str_digits]: [int] refuses a text of more
    digits. *)
Definition max_str_digits : nat := 4300.

(** What [int(s)] does on an [s] for which [s.isdigit()] holds: it
    returns a number, or raises [ValueError] with a message. *)
Inductive parsed : Type :=
| Parsed : nat -> parsed
| Invalid : string -> parsed.

(** What is assumed of the two builtins: on a [str] of ASCII characters
    [isdigit] is [ascii_isdigit], and on a text of at most
    [max_str_digits] digits [0] to [9], [int] returns the number it
    writes.  Nothing is assumed of them elsewhere: [isdigit] may hold for
    other digits of Unicode, and [int] may raise [ValueError] for them
    or return their value. *)
Definition builtins_spec
    (isdigit : string -> bool) (int : string -> parsed) : Prop :=
  (forall s, is_ascii s = true -> isdigit s = ascii_isdigit s) /\
  (forall s, ascii_isdigit s = true ->
             (String.length s <= max_str_digits)%nat ->
             int s = Parsed (ascii_value s)).

(** The builtins cut down to ASCII, which meet [builtins_spec]; the
    concrete cases below are run with them. *)
Definition ascii_int (s : string) : parsed :=
  if ascii_isdigit s then
    if (String.length s <=? max_str_digits)%nat then Parsed (ascii_value s)
    else Invalid "Exceeds the limit (4300 digits) for integer string conversion"
  else Invalid ("invalid literal for int() with base 10: " ++ s).

(** A key the builtins are known on: ASCII, and no longer than [int]
    accepts. *)
Definition short_ascii (s : string) : bool :=
  is_ascii s && (String.length s <=? max_str_digits)%nat.

(** An index [int] reads back from [str(i)]. *)
Definition index_fits (i : nat) : bool :=
  (String.length (str i) <=? max_str_digits)%nat.

(** [s.startswith(p)] *)
Fixpoint startswith (p s : string) : bool :=
  match p, s with
  | EmptyString, _ => true
  | String a p', String b s' => Ascii.eqb a b && startswith p' s'
  | String _ _, EmptyString => false
  end.

(** [s.split(sep)] for a non-empty [sep]: the pieces between the
    occurrences of [sep] found scanning from the left.  [skip] counts the
    characters of a matched separator still to be passed over. *)
Fixpoint split_from (sep s : string) (skip : nat) : list string :=
  match s with
  | EmptyString => [EmptyString]
  | String c s' =>
      match skip with
      | S k => split_from sep s' k
      | O =>
          if startswith sep s
          then EmptyString :: split_from sep s' (String.length sep - 1)%nat
          else match split_from sep s' 0%nat with
               | p :: ps => String c p :: ps
               | [] => [String c EmptyString]
               end
      end
  end.

Definition split (sep s : string) : list string := split_from sep s 0%nat.

(** ** flatten *)

(** [f"{prefix}{separator}{key}" if prefix else key] *)
Definition new_key (prefix separator key : string) : string :=
  if String.eqb prefix "" then key else prefix ++ separator ++ key.

(** [max_depth is not None and current_depth >= max_depth] *)
Definition depth_reached (max_depth : option Z) (current_depth : Z) : bool :=
  match max_depth with
  | Some m => (m <=? current_depth)%Z
  | None => false
  end.

(** One turn of the loop [for key, value in data.items()] of [flatten],
    as a function from [result] to [result].  The recursive calls of the
    source are calls of [flatten] on a [dict]; [flatten] on a [dict] is
    the fold of this body over its items, the local [flatten] here, and
    [go_list] is the inner loop over [enumerate(value)]. *)
Fixpoint flatten_entry (separator : string) (max_depth : option Z)
    (current_depth : Z) (prefix key : string) (value : json)
    (result : dict) {struct value} : dict :=
  let flatten (data : dict) (prefix : string) (current_depth : Z) : dict :=
    fold_left
      (fun r kv =>
         flatten_entry separator max_depth current_depth prefix
           (fst kv) (snd kv) r)
      data [] in
  let nk := new_key prefix separator key in
  if depth_reached max_depth current_depth then dict_set result nk value
  else
    match value with
    | JDict d =>
        dict_update result (flatten d nk (current_depth + 1)%Z)
    | JList l =>
        (fix go_list (items : list json) (i : nat) (result : dict) : dict :=
           match items with
           | [] => result
           | item :: items' =>
               let list_key := nk ++ separator ++ str i in
               go_list items' (S i)
                 match item with
                 | JDict d =>
                     dict_update result
                       (flatten d list_key (current_depth + 1)%Z)
                 | JList _ =>
                     dict_update result
                       (flatten [(str i, item)] nk (current_depth + 1)%Z)
                 | _ => dict_set result list_key item
                 end
           end) l 0%nat result
    | _ => dict_set result nk value
    end.

Definition flatten (data : dict) (separator prefix : string)
    (max_depth : option Z) (current_depth : Z) : dict :=
  fold_left
    (fun r kv =>
       flatten_entry separator max_depth current_depth prefix
         (fst kv) (snd kv) r)
    data [].

(** ** unflatten *)

Inductive exn : Type :=
| TypeError : exn
| ValueError : string -> exn.

(** [while len(current) <= index: current.append(x)] *)
Definition pad (l : list json) (index : nat) (x : json) : list json :=
  (l ++ repeat x (S index - List.length l))%list.

(** [current[index] = v] on a list, for an index in range. *)
Fixpoint list_set (l : list json) (index : nat) (v : json) : list json :=
  match l, index with
  | [], _ => []
  | _ :: l', O => v :: l'
  | x :: l', S i => x :: list_set l' i v
  end.

(** [current[index]] on a list, for an index in range. *)
Definition list_get (l : list json) (index : nat) : json := nth index l JNull.

(** What the body of the loop over the entries does with one entry.
    [current] of the source is a reference into [result]; here the
    container it refers to is passed down and the container as it is
    after the mutations is passed back up, so that the caller can put it
    back at the place it came from.  That is the whole of the aliasing in
    the source: every container reached through [current] has one
    parent. *)
Inductive walked : Type :=
| Stored : json -> walked      (* the entry was stored; the loop goes on *)
| Returned : json -> walked    (* [return result] was executed *)
| Raised : exn -> walked.      (* an exception left the function *)

Section Builtins.

(** The two builtins [unflatten] calls on the parts of a key:
    [part.isdigit()], and [int(part)], which is only called on a part
    for which [isdigit] holds.  Their tables are not part of the source;
    the properties hold for every pair of functions, or for every pair
    that behaves on ASCII as [builtins_spec] says. *)
Variable isdigit : string -> bool.
Variable int : string -> parsed.

(** The body of [for key, value in data.items()] after the [split], on
    the parts that are left: the head is [part] of the inner loop when
    more parts follow it and [last_part] otherwise.  With [parts[i]] the
    head, [i + 1 < len(parts) - 1] says that at least two parts follow. *)
Fixpoint walk (parts : list string) (value : json) (current : json)
    {struct parts} : walked :=
  match parts with
  | [] => Stored current (* no such call: [split] returns a part *)
  | part :: rest =>
      match rest with
      | [] =>
          if isdigit part then
            match int part with
            | Invalid msg => Raised (ValueError msg)
            | Parsed index =>
                match current with
                | JList l =>
                    Stored (JList (list_set (pad l index JNull) index value))
                | _ => Returned current
                end
            end
          else
            match current with
            | JDict d => Stored (JDict (dict_set d part value))
            | _ => Returned current
            end
      | next_part :: after =>
          let is_next_index :=
            match after with
            | [] => false
            | _ :: _ => isdigit next_part
            end in
          if isdigit part then
            match int part with
            | Invalid msg => Raised (ValueError msg)
            | Parsed index =>
                match current with
                | JList l =>
                    let l1 :=
                      pad l index
                        (if is_next_index then JList [] else JDict []) in
                    let l2 :=
                      if is_next_index && negb (is_list (list_get l1 index))
                      then list_set l1 index (JList [])
                      else if negb is_next_index
                              && negb (is_dict (list_get l1 index))
                      then list_set l1 index (JDict [])
                      else l1 in
                    match walk rest value (list_get l2 index) with
                    | Stored c => Stored (JList (list_set l2 index c))
                    | Returned c => Returned (JList (list_set l2 index c))
                    | Raised e => Raised e
                    end
                | _ => Returned current
                end
            end
          else
            match current with
            | JDict d =>
                let d1 :=
                  if dict_mem part d then d
                  else dict_set d part (if is_next_index then JList [] else JDict []) in
                match dict_get part d1 with
                | Some child =>
                    match walk rest value child with
                    | Stored c => Stored (JDict (dict_set d1 part c))
                    | Returned c => Returned (JDict (dict_set d1 part c))
                    | Raised e => Raised e
                    end
                | None => Raised TypeError (* no such case: the key is there *)
                end
            | _ =>
                (* [part not in current] or the subscript with a [str]
                   fails on a list, a string and every other scalar *)
                Raised TypeError
            end
      end
  end.

(** How a call of [unflatten] ends. *)
Inductive outcome : Type :=
| Completed : json -> outcome     (* the final [return result] *)
| EarlyReturn : json -> outcome   (* one of the [return result] in the loop *)
| Raise : exn -> outcome.

Fixpoint unflatten_loop (items : dict) (separator : string) (result : json)
    : outcome :=
  match items with
  | [] => Completed result
  | (key, value) :: items' =>
      if String.eqb separator ""
      then Raise (ValueError "empty separator")
      else
        match walk (split separator key) value result with
        | Stored r => unflatten_loop items' separator r
        | Returned r => EarlyReturn r
        | Raised e => Raise e
        end
  end.

Definition unflatten (data : dict) (separator : string) : outcome :=
  unflatten_loop data separator (JDict []).

(** The value the caller receives, if any. *)
Definition returned_value (o : outcome) : option json :=
  match o with
  | Completed r | EarlyReturn r => Some r
  | Raise _ => None
  end.

(** ** process_file

    The dispatch of [process_file] on the document [json.load] returned;
    reading the file and [json.dumps] are left out, the result is the
    value that is serialised. *)
Definition process_file (data : json) (mode separator : string)
    (max_depth : option Z) : outcome :=
  if String.eqb mode "flatten" then
    match data with
    | JDict d => Completed (JDict (flatten d separator "" max_depth 0))
    | _ => Raise (ValueError "Input must be a JSON object for flatten mode")
    end
  else if String.eqb mode "unflatten" then
    match data with
    | JDict d => unflatten d separator
    | _ => Raise (ValueError "Input must be a JSON object for unflatten mode")
    end
  else Raise (ValueError ("Unknown mode: " ++ mode)).

(** * Vocabulary of the properties *)

(** ** Induction over values *)

Section JsonInd.
Variable P : json -> Prop.
Hypothesis HNull : P JNull.
Hypothesis HBool : forall b, P (JBool b).
Hypothesis HNum : forall n, P (JNum n).
Hypothesis HStr : forall s, P (JStr s).
Hypothesis HList : forall l, Forall P l -> P (JList l).
Hypothesis HDict :
  forall d, Forall (fun kv => P (snd kv)) d -> P (JDict d).

Fixpoint json_ind (v : json) : P v :=
  match v with
  | JNull => HNull
  | JBool b => HBool b
  | JNum n => HNum n
  | JStr s => HStr s
  | JList l =>
      HList l
        ((fix all (l : list json) : Forall P l :=
            match l with
            | [] => Forall_nil _
            | x :: l' => Forall_cons x (json_ind x) (all l')
            end) l)
  | JDict d =>
      HDict d
        ((fix all (d : dict) : Forall (fun kv => P (snd kv)) d :=
            match d with
            | [] => Forall_nil _
            | kv :: d' =>
                Forall_cons (P := fun kv => P (snd kv)) kv
                  (json_ind (snd kv)) (all d')
            end) d)
  end.
End JsonInd.

(** ** The loops and steps of the source as functions of their own *)

(** The loop [for i, item in enumerate(value)], started at index [i]. *)
Fixpoint flatten_items (separator : string) (max_depth : option Z)
    (current_depth : Z) (nk : string) (items : list json) (i : nat)
    (result : dict) : dict :=
  match items with
  | [] => result
  | item :: items' =>
      let list_key := nk ++ separator ++ str i in
      flatten_items separator max_depth current_depth nk items' (S i)
        match item with
        | JDict d =>
            dict_update result
              (flatten d separator list_key max_depth (current_depth + 1))
        | JList _ =>
            dict_update result
              (flatten [(str i, item)] separator nk max_depth
                 (current_depth + 1))
        | _ => dict_set result list_key item
        end
  end.

(** ** Values of a flat mapping *)

Definition values_satisfy (Q : json -> Prop) (d : dict) : Prop :=
  Forall (fun kv => Q (snd kv)) d.

Definition scalar (v : json) : Prop := is_scalar v = true.

(** What the induction over a value carries: for a [dict] its [flatten],
    for a [list] the loop over its items. *)
Definition flat_scalar (v : json) : Prop :=
  match v with
  | JDict d =>
      forall separator prefix depth,
        values_satisfy scalar (flatten d separator prefix None depth)
  | JList l =>
      forall separator depth nk i result,
        values_satisfy scalar result ->
        values_satisfy scalar (flatten_items separator None depth nk l i result)
  | _ => True
  end.

(** ** One step of the walk *)

(** [is_next_index] of the source, from the parts after [part]. *)
Definition is_next_index (rest : list string) : bool :=
  match rest with
  | next_part :: _ :: _ => isdigit next_part
  | _ => false
  end.

(** The list [current] refers to once the body of [if part.isdigit()]
    has run, before [current = current[index]]. *)
Definition ensure_index (l : list json) (index : nat) (nxt : bool)
    : list json :=
  let l1 := pad l index (if nxt then JList [] else JDict []) in
  if nxt && negb (is_list (list_get l1 index))
  then list_set l1 index (JList [])
  else if negb nxt && negb (is_dict (list_get l1 index))
  then list_set l1 index (JDict [])
  else l1.

(** The dict [current] refers to once the body of the [else] branch has
    run, before [current = current[part]]. *)
Definition ensure_key (d : dict) (part : string) (nxt : bool) : dict :=
  if dict_mem part d then d
  else dict_set d part (if nxt then JList [] else JDict []).

(** ** Paths and leaves *)

(** [sub in s] *)
Fixpoint contains (sub s : string) : bool :=
  startswith sub s ||
  match s with
  | EmptyString => false
  | String _ s' => contains sub s'
  end.

(** Put the part [k] in front of every path. *)
Definition under (k : string) (E : list (list string * json))
    : list (list string * json) :=
  map (fun pv => (k :: fst pv, snd pv)) E.

(** The scalars of a value in the order [flatten] visits them, each with
    the keys and indices that lead to it. *)
Fixpoint leaves (v : json) : list (list string * json) :=
  match v with
  | JDict d => flat_map (fun kv => under (fst kv) (leaves (snd kv))) d
  | JList l =>
      (fix go (items : list json) (i : nat) : list (list string * json) :=
         match items with
         | [] => []
         | item :: items' =>
             (under (str i) (leaves item) ++ go items' (S i))%list
         end) l 0%nat
  | _ => [([], v)]
  end.

Definition leaves_dict (d : dict) : list (list string * json) :=
  flat_map (fun kv => under (fst kv) (leaves (snd kv))) d.

Fixpoint leaves_items (items : list json) (i : nat)
    : list (list string * json) :=
  match items with
  | [] => []
  | item :: items' =>
      (under (str i) (leaves item) ++ leaves_items items' (S i))%list
  end.

Definition paths (E : list (list string * json)) : list (list string) :=
  map fst E.

(** ** Trees that [unflatten] rebuilds *)

Definition good_key (sep k : string) : bool :=
  negb (String.eqb k "") && negb (isdigit k) && negb (contains sep k).

Fixpoint keys_unique (ks : list string) : bool :=
  match ks with
  | [] => true
  | k :: ks' => negb (existsb (String.eqb k) ks') && keys_unique ks'
  end.

Definition nonempty {A : Type} (l : list A) : bool :=
  match l with [] => false | _ :: _ => true end.

(** A nested container: it is not empty, the keys of a mapping are
    unique, not empty, not digit-only and hold no separator, the values of
    a mapping are scalars or such containers, and the elements of a
    sequence are such containers. *)
Fixpoint rebuildable (sep : string) (v : json) : bool :=
  match v with
  | JDict d =>
      nonempty d && keys_unique (map fst d) &&
      forallb
        (fun kv =>
           good_key sep (fst kv) &&
           (is_scalar (snd kv) || rebuildable sep (snd kv))) d
  | JList l => nonempty l && forallb (rebuildable sep) l
  | _ => false
  end.

(** The same for the root mapping, which may be empty. *)
Definition rebuildable_root (sep : string) (tree : dict) : bool :=
  keys_unique (map fst tree) &&
  forallb
    (fun kv =>
       good_key sep (fst kv) &&
       (is_scalar (snd kv) || rebuildable sep (snd kv))) tree.

Definition entry_ok (sep : string) (kv : string * json) : bool :=
  good_key sep (fst kv) && (is_scalar (snd kv) || rebuildable sep (snd kv)).

(** ** Containers of the walk *)

(** The empty container [unflatten] creates for a look-ahead. *)
Definition empty_for (nxt : bool) : json :=
  if nxt then JList [] else JDict [].

(** A container of the kind a look-ahead asks for. *)
Definition kind_is (nxt : bool) (v : json) : Prop :=
  is_list v = nxt /\ is_dict v = negb nxt.

(** The entries of the loop one after the other, with the keys already
    split into parts. *)
Fixpoint walk_all (E : list (list string * json)) (current : json) : walked :=
  match E with
  | [] => Stored current
  | (parts, value) :: E' =>
      match walk parts value current with
      | Stored c => walk_all E' c
      | other => other
      end
  end.

(** A value of a mapping entry: a scalar or a nested container. *)
Definition ok (sep : string) (v : json) : Prop :=
  is_scalar v || rebuildable sep v = true.

Definition key_facts (sep : string) (k : string) : Prop :=
  k <> "" /\ isdigit k = false /\ contains sep k = false.

Definition sep_free (sep : string) (p : list string) : Prop :=
  Forall (fun s => contains sep s = false) p.

(** In a nested container every path has a part to descend by, and the
    look-ahead at that part tells the kind of the container. *)
Definition descends (v : json) (p : list string) : Prop :=
  p <> [] /\ is_next_index p = is_list v.

(** The key [flatten] builds for the path [p] below the prefix [P]. *)
Definition key_of (sep : string) (P : string) (p : list string) : string :=
  new_key P sep (concat sep p).

Definition entries (sep : string) (P : string) (E : list (list string * json)) : dict :=
  map (fun pv => (key_of sep P (fst pv), snd pv)) E.

(** What the induction carries: for a mapping the result of [flatten],
    for a sequence the result of the loop over its items. *)
Definition flat_spec (sep : string) (v : json) : Prop :=
  match v with
  | JDict d =>
      forall P depth,
        NoDup (dict_keys (entries sep P (leaves_dict d))) ->
        flatten d sep P None depth = entries sep P (leaves_dict d)
  | JList l =>
      forall nk depth i result,
        nk <> "" ->
        NoDup (dict_keys result ++ dict_keys (entries sep nk (leaves_items l i))) ->
        flatten_items sep None depth nk l i result =
        (result ++ entries sep nk (leaves_items l i))%list
  | _ => True
  end.

(** Every index of every sequence in [v] is one [int] reads back; it is
    so for every list Python can hold, whose indices have fewer than
    twenty digits. *)
Fixpoint indices_fit (v : json) : bool :=
  match v with
  | JDict d => forallb (fun kv => indices_fit (snd kv)) d
  | JList l =>
      forallb index_fits (seq 0 (List.length l)) && forallb indices_fit l
  | _ => true
  end.

(** What the induction carries: the entries of a mapping extend any
    mapping that holds none of its keys, the entries of a sequence
    extend any sequence from its end. *)
Definition rebuilt (v : json) : Prop :=
  match v with
  | JDict d =>
      forall D,
        (forall k, In k (dict_keys d) -> ~ In k (dict_keys D)) ->
        walk_all (leaves_dict d) (JDict D) = Stored (JDict (D ++ d)%list)
  | JList l =>
      forall L,
        (forall i, (i < List.length L + List.length l)%nat ->
                   index_fits i = true) ->
        walk_all (leaves_items l (List.length L)) (JList L) =
        Stored (JList (L ++ l)%list)
  | _ => True
  end.

(** Every key of every mapping in [v] avoids the separator: it neither
    equals nor contains it. *)
Fixpoint keys_avoid (sep : string) (v : json) : bool :=
  match v with
  | JDict d =>
      forallb
        (fun kv => negb (contains sep (fst kv)) && keys_avoid sep (snd kv)) d
  | JList l => forallb (keys_avoid sep) l
  | _ => true
  end.

(** The container [walk] hands back, unless an exception left it. *)
Definition walked_value (w : walked) : option json :=
  match w with
  | Stored c | Returned c => Some c
  | Raised _ => None
  end.

(** ** Further vocabulary *)

(** The mappings nested one in the other along [parts], with [value]
    at the end. *)
Fixpoint nest (parts : list string) (value : json) : json :=
  match parts with
  | [] => value
  | part :: rest => JDict [(part, nest rest value)]
  end.

(** The levels of [current_depth] the value of an entry takes below the
    entry: none for a scalar, one for a mapping or a sequence, plus what
    their contents take; a mapping that is an item of a sequence is
    entered at the level of the sequence. *)
Fixpoint levels (v : json) : nat :=
  match v with
  | JDict d => S (list_max (map (fun kv => levels (snd kv)) d))
  | JList l =>
      S (list_max
           (map (fun item => if is_dict item then Nat.pred (levels item)
                             else levels item) l))
  | _ => 0%nat
  end.

Definition item_levels (item : json) : nat :=
  if is_dict item then Nat.pred (levels item) else levels item.

(** Every key of [d] starts with [pre]. *)
Definition keys_start (pre : string) (d : dict) : Prop :=
  Forall (fun kv => startswith pre (fst kv) = true) d.

(** What the induction carries for the keys: for a mapping the keys of
    its [flatten], for a sequence the keys the loop over its items
    leaves. *)
Definition below_prefix (v : json) : Prop :=
  match v with
  | JDict d =>
      forall separator P pre max_depth depth,
        P <> "" -> startswith pre (P ++ separator) = true ->
        keys_start pre (flatten d separator P max_depth depth)
  | JList l =>
      forall separator nk pre max_depth depth i result,
        nk <> "" -> startswith pre (nk ++ separator) = true ->
        keys_start pre result ->
        keys_start pre (flatten_items separator max_depth depth nk l i result)
  | _ => True
  end.

(** What the induction carries for [max_depth]: a limit beyond the
    levels of the value is no limit. *)
Definition deep_enough (v : json) : Prop :=
  match v with
  | JDict d =>
      forall separator P m depth,
        (depth + Z.of_nat (list_max (map (fun kv => levels (snd kv)) d))
         <= m)%Z ->
        flatten d separator P (Some m) depth = flatten d separator P None depth
  | JList l =>
      forall separator nk m depth i result,
        (depth + 1 + Z.of_nat (list_max (map item_levels l)) <= m)%Z ->
        flatten_items separator (Some m) depth nk l i result =
        flatten_items separator None depth nk l i result
  | _ => True
  end.

(** What the induction carries for the number of entries. *)
Definition few_entries (v : json) : Prop :=
  match v with
  | JDict d =>
      forall separator P depth,
        (List.length (flatten d separator P None depth)
         <= List.length (leaves_dict d))%nat
  | JList l =>
      forall separator nk depth i result,
        (List.length (flatten_items separator None depth nk l i result)
         <= List.length result + List.length (leaves_items l i))%nat
  | _ => True
  end.

(** * Properties *)

(** The builtins are the ones of Python. *)
Hypothesis builtins : builtins_spec isdigit int.

(** ** The loops of [flatten] as functions of their own *)

Lemma flatten_entry_eq separator max_depth current_depth prefix key value result :
  flatten_entry separator max_depth current_depth prefix key value result =
  let nk := new_key prefix separator key in
  if depth_reached max_depth current_depth then dict_set result nk value
  else
    match value with
    | JDict d =>
        dict_update result
          (flatten d separator nk max_depth (current_depth + 1))
    | JList l =>
        flatten_items separator max_depth current_depth nk l 0 result
    | _ => dict_set result nk value
    end.
Proof.
  destruct value as [| b | n | s | l | d]; try reflexivity.
  cbn zeta. unfold flatten_entry; fold flatten_entry.
  destruct (depth_reached max_depth current_depth); [reflexivity|].
  generalize 0%nat as i. revert result.
  induction l as [|item l IH]; intros result i; [reflexivity|].
  cbn [flatten_items]. rewrite <- IH. reflexivity.
Qed.

Lemma flatten_nil separator prefix max_depth current_depth :
  flatten [] separator prefix max_depth current_depth = [].
Proof. reflexivity. Qed.

Lemma flatten_step separator prefix max_depth current_depth data acc :
  fold_left
    (fun r kv =>
       flatten_entry separator max_depth current_depth prefix
         (fst kv) (snd kv) r) data acc =
  fold_left
    (fun r kv =>
       let nk := new_key prefix separator (fst kv) in
       if depth_reached max_depth current_depth
       then dict_set r nk (snd kv)
       else
         match snd kv with
         | JDict d =>
             dict_update r
               (flatten d separator nk max_depth (current_depth + 1))
         | JList l =>
             flatten_items separator max_depth current_depth nk l 0 r
         | _ => dict_set r nk (snd kv)
         end) data acc.
Proof.
  revert acc. induction data as [|kv data IH]; intros acc; [reflexivity|].
  cbn [fold_left]. rewrite flatten_entry_eq. apply IH.
Qed.

Lemma flatten_items_app separator max_depth current_depth nk l1 l2 i result :
  flatten_items separator max_depth current_depth nk (l1 ++ l2)%list i result =
  flatten_items separator max_depth current_depth nk l2 (List.length l1 + i)
    (flatten_items separator max_depth current_depth nk l1 i result).
Proof.
  revert i result. induction l1 as [|x l1 IH]; intros i result; [reflexivity|].
  rewrite <- app_comm_cons. cbn [flatten_items List.length]. rewrite IH.
  replace (List.length l1 + S i)%nat with (S (List.length l1) + i)%nat by lia.
  reflexivity.
Qed.

(** ** Facts about [dict_set] and [dict_update] *)

Lemma dict_set_values Q d k v :
  values_satisfy Q d -> Q v -> values_satisfy Q (dict_set d k v).
Proof.
  unfold values_satisfy. intros Hd Hv.
  induction d as [|[k' v'] d IH]; cbn [dict_set].
  - constructor; [exact Hv | constructor].
  - inversion Hd as [|? ? Hhd Htl]; subst.
    destruct (String.eqb k k'); constructor; auto.
Qed.

Lemma dict_update_values Q d other :
  values_satisfy Q d -> values_satisfy Q other ->
  values_satisfy Q (dict_update d other).
Proof.
  unfold dict_update. intros Hd Ho. revert d Hd.
  induction Ho as [|kv other Hkv Ho IH]; intros d Hd; cbn [fold_left].
  - exact Hd.
  - apply IH. apply dict_set_values; assumption.
Qed.

Lemma dict_mem_In k d : dict_mem k d = true <-> In k (dict_keys d).
Proof.
  induction d as [|[k' v'] d IH]; cbn [dict_mem dict_keys map fst In].
  - split; [discriminate | tauto].
  - destruct (String.eqb_spec k k') as [->|Hne].
    + split; auto.
    + rewrite IH. unfold dict_keys. split; [auto|]. intros [H|H]; congruence.
Qed.

Lemma dict_mem_false k d : dict_mem k d = false <-> ~ In k (dict_keys d).
Proof.
  rewrite <- dict_mem_In. destruct (dict_mem k d); split; congruence.
Qed.

Lemma dict_set_fresh d k v :
  ~ In k (dict_keys d) -> dict_set d k v = (d ++ [(k, v)])%list.
Proof.
  induction d as [|[k' v'] d IH]; cbn [dict_set dict_keys map fst In app].
  - reflexivity.
  - intros Hn. destruct (String.eqb_spec k k') as [->|Hne]; [tauto|].
    rewrite IH; [reflexivity|]. unfold dict_keys. tauto.
Qed.

Lemma dict_keys_app d1 d2 :
  dict_keys (d1 ++ d2)%list = (dict_keys d1 ++ dict_keys d2)%list.
Proof. apply map_app. Qed.

(** Storing entries with fresh, pairwise distinct keys appends them. *)
Lemma dict_update_fresh other : forall d,
  NoDup (dict_keys other) ->
  (forall k, In k (dict_keys other) -> ~ In k (dict_keys d)) ->
  dict_update d other = (d ++ other)%list.
Proof.
  unfold dict_update.
  induction other as [|[k v] other IH]; intros d Hnd Hfresh; cbn [fold_left].
  - now rewrite app_nil_r.
  - cbn [dict_keys map fst] in Hnd, Hfresh. inversion Hnd as [|? ? Hk Hnd']; subst.
    cbn [fst snd]. rewrite dict_set_fresh by (apply Hfresh; now left).
    rewrite IH.
    + now rewrite <- app_assoc.
    + exact Hnd'.
    + intros k' Hk'. rewrite dict_keys_app. cbn [dict_keys map fst].
      rewrite in_app_iff. intros [H|[H|[]]].
      * apply (Hfresh k'); [now right | exact H].
      * subst. exact (Hk Hk').
Qed.

(** ** Values of the flat mapping *)

Lemma flat_scalar_entry separator depth prefix key v result :
  flat_scalar v ->
  values_satisfy scalar result ->
  values_satisfy scalar
    (flatten_entry separator None depth prefix key v result).
Proof.
  intros Hv Hr. rewrite flatten_entry_eq. cbn zeta. cbn [depth_reached].
  destruct v; cbn [flat_scalar] in Hv;
    try (apply dict_set_values; [exact Hr | reflexivity]).
  - apply Hv, Hr.
  - apply dict_update_values; [exact Hr | apply Hv].
Qed.

Lemma flat_scalar_all : forall v, flat_scalar v.
Proof.
  induction v as [| b | n | s | l IH | d IH] using json_ind;
    cbn [flat_scalar]; auto.
  - intros separator depth nk.
    induction IH as [|item l Hitem _ IHl]; intros i result Hr;
      cbn [flatten_items]; [exact Hr|].
    apply IHl. destruct item; cbn [flat_scalar] in Hitem;
      try (apply dict_set_values; [exact Hr | reflexivity]).
    + apply dict_update_values; [exact Hr|].
      unfold flatten. cbn [fold_left fst snd].
      apply flat_scalar_entry; [exact Hitem | constructor].
    + apply dict_update_values; [exact Hr | apply Hitem].
  - intros separator prefix depth. unfold flatten.
    assert (Hnil : values_satisfy scalar []) by constructor.
    revert Hnil. generalize (@nil (string * json)) as acc.
    induction IH as [|kv d Hkv _ IHd]; intros acc Hacc; cbn [fold_left];
      [exact Hacc|].
    apply IHd. apply flat_scalar_entry; assumption.
Qed.

(** ** Unfolding [walk] one part at a time *)

Lemma walk_last part value current :
  walk [part] value current =
  if isdigit part then
    match int part with
    | Invalid msg => Raised (ValueError msg)
    | Parsed index =>
        match current with
        | JList l => Stored (JList (list_set (pad l index JNull) index value))
        | _ => Returned current
        end
    end
  else
    match current with
    | JDict d => Stored (JDict (dict_set d part value))
    | _ => Returned current
    end.
Proof. reflexivity. Qed.

Lemma walk_step part next_part after value current :
  walk (part :: next_part :: after) value current =
  let rest := next_part :: after in
  let nxt := is_next_index rest in
  if isdigit part then
    match int part with
    | Invalid msg => Raised (ValueError msg)
    | Parsed index =>
        match current with
        | JList l =>
            let l2 := ensure_index l index nxt in
            match walk rest value (list_get l2 index) with
            | Stored c => Stored (JList (list_set l2 index c))
            | Returned c => Returned (JList (list_set l2 index c))
            | Raised e => Raised e
            end
        | _ => Returned current
        end
    end
  else
    match current with
    | JDict d =>
        let d1 := ensure_key d part nxt in
        match dict_get part d1 with
        | Some child =>
            match walk rest value child with
            | Stored c => Stored (JDict (dict_set d1 part c))
            | Returned c => Returned (JDict (dict_set d1 part c))
            | Raised e => Raised e
            end
        | None => Raised TypeError
        end
    | _ => Raised TypeError
    end.
Proof. reflexivity. Qed.

Arguments walk : simpl never.

(** ** Structure of the result of [unflatten] *)

Lemma walk_dict_root parts value d :
  match walk parts value (JDict d) with
  | Stored c | Returned c => is_dict c = true
  | Raised _ => True
  end.
Proof.
  destruct parts as [|part [|next_part after]]; [reflexivity| |].
  - rewrite walk_last. destruct (isdigit part), (int part); reflexivity.
  - rewrite walk_step. cbn zeta.
    destruct (isdigit part); [destruct (int part); reflexivity|].
    destruct (dict_get part _) as [child|]; [|exact I].
    destruct (walk _ value child); auto.
Qed.

Lemma unflatten_loop_root items separator : forall result,
  is_dict result = true ->
  match unflatten_loop items separator result with
  | Completed r | EarlyReturn r => is_dict r = true
  | Raise _ => True
  end.
Proof.
  induction items as [|[key value] items IH]; intros result Hr;
    cbn [unflatten_loop]; [exact Hr|].
  destruct (String.eqb separator ""); [exact I|].
  destruct result as [| | | | |d]; try discriminate.
  pose proof (walk_dict_root (split separator key) value d) as Hw.
  destruct (walk (split separator key) value (JDict d));
    [apply IH; exact Hw | exact Hw | exact I].
Qed.

(** ** Strings *)

Lemma append_assoc (a b c : string) : (a ++ b) ++ c = a ++ b ++ c.
Proof. induction a as [|x a IH]; cbn; [reflexivity | now rewrite IH]. Qed.

Lemma append_nil_r (a : string) : a ++ "" = a.
Proof. induction a as [|x a IH]; cbn; [reflexivity | now rewrite IH]. Qed.

Lemma append_inj_l (a b c : string) : a ++ b = a ++ c -> b = c.
Proof.
  induction a as [|x a IH]; cbn; [auto|]. intros H. injection H. exact IH.
Qed.

Lemma append_nonempty_l (a b : string) : a <> "" -> a ++ b <> "".
Proof. destruct a; [congruence | discriminate]. Qed.

Lemma all_digits_uint d : all_digits (NilEmpty.string_of_uint d) = true.
Proof. induction d; cbn; auto. Qed.

Lemma to_uint_nonnil i : Nat.to_uint i <> Nil.
Proof.
  pose proof (Unsigned.to_of (Nat.to_uint i)) as H.
  rewrite Unsigned.of_to in H. rewrite H. apply DecimalFacts.unorm_nonnil.
Qed.

Lemma str_nonempty i : str i <> "".
Proof.
  unfold str. pose proof (to_uint_nonnil i) as H.
  destruct (Nat.to_uint i); [congruence | discriminate ..].
Qed.

Lemma ascii_isdigit_str i : ascii_isdigit (str i) = true.
Proof.
  pose proof (str_nonempty i) as H. unfold ascii_isdigit.
  destruct (str i) eqn:E; [congruence|]. rewrite <- E. apply all_digits_uint.
Qed.

Lemma int_acc_uint d : forall acc,
  int_acc acc (NilEmpty.string_of_uint d) = Nat.of_uint_acc d acc.
Proof.
  induction d; intros acc; cbn [NilEmpty.string_of_uint int_acc Nat.of_uint_acc];
    [reflexivity | rewrite IHd, Nat.tail_mul_spec; f_equal; cbn; lia ..].
Qed.

Lemma ascii_value_str i : ascii_value (str i) = i.
Proof. unfold ascii_value, str. rewrite int_acc_uint. apply Unsigned.of_to. Qed.

Lemma str_inj i j : str i = str j -> i = j.
Proof.
  intros H. rewrite <- (ascii_value_str i), <- (ascii_value_str j).
  now rewrite H.
Qed.

Lemma is_ascii_uint d : is_ascii (NilEmpty.string_of_uint d) = true.
Proof. induction d; cbn; auto. Qed.

(** [isdigit] and [int] on the text of an index. *)
Lemma isdigit_str i : isdigit (str i) = true.
Proof.
  destruct builtins as [H _]. rewrite H by apply is_ascii_uint.
  apply ascii_isdigit_str.
Qed.

Lemma int_str i : index_fits i = true -> int (str i) = Parsed i.
Proof.
  intros Hi. destruct builtins as [_ H].
  rewrite H; [now rewrite ascii_value_str | apply ascii_isdigit_str |].
  now apply Nat.leb_le.
Qed.

Section SingleCharSeparator.
(** A separator of one character that is not a digit. *)
Variable c : ascii.
Hypothesis c_not_digit : is_digit_char c = false.

Let sep : string := String c "".

Lemma contains_char x s :
  contains sep (String x s) = Ascii.eqb c x || contains sep s.
Proof.
  cbn [contains sep startswith]. now rewrite andb_true_r.
Qed.

Lemma eqb_digit x : is_digit_char x = true -> Ascii.eqb c x = false.
Proof.
  intros Hx. destruct (Ascii.eqb_spec c x) as [E|]; [|reflexivity].
  rewrite E in c_not_digit. congruence.
Qed.

Lemma contains_uint d : contains sep (NilEmpty.string_of_uint d) = false.
Proof.
  induction d; cbn [NilEmpty.string_of_uint];
    [reflexivity
    | rewrite contains_char, IHd, eqb_digit by reflexivity; reflexivity ..].
Qed.

Lemma contains_str i : contains sep (str i) = false.
Proof. apply contains_uint. Qed.

(** [split] stops at the first separator when the text before it holds
    none. *)
Lemma split_from_char x rest :
  contains sep x = false ->
  split_from sep (x ++ String c rest) 0 = x :: split_from sep rest 0.
Proof.
  induction x as [|a x IH]; intros Hx.
  - cbn. now rewrite Ascii.eqb_refl.
  - rewrite contains_char in Hx. apply orb_false_iff in Hx as [Ha Hx].
    change (String a x ++ String c rest) with (String a (x ++ String c rest)).
    cbn [split_from]. rewrite (IH Hx).
    cbn [startswith sep]. now rewrite Ha.
Qed.

Lemma split_append x rest :
  contains sep x = false ->
  split sep (x ++ sep ++ rest) = x :: split sep rest.
Proof. apply split_from_char. Qed.

Lemma split_whole x : contains sep x = false -> split sep x = [x].
Proof.
  unfold split. induction x as [|a x IH]; intros Hx; [reflexivity|].
  rewrite contains_char in Hx. apply orb_false_iff in Hx as [Ha Hx].
  cbn [split_from]. rewrite (IH Hx).
  cbn [startswith sep]. now rewrite Ha.
Qed.

(** [split] undoes the joining of parts that hold no separator. *)
Lemma split_concat parts :
  parts <> [] ->
  Forall (fun p => contains sep p = false) parts ->
  split sep (concat sep parts) = parts.
Proof.
  induction parts as [|p [|q parts] IH]; intros Hne Hall; [congruence| |].
  - cbn [concat]. apply split_whole. now inversion Hall.
  - inversion Hall as [|? ? Hp Hrest]; subst.
    change (concat sep (p :: q :: parts))
      with (p ++ sep ++ concat sep (q :: parts)).
    rewrite split_append by exact Hp. f_equal. apply IH; [discriminate|exact Hrest].
Qed.

End SingleCharSeparator.

(** ** Leaves and trees that [unflatten] rebuilds *)

Lemma leaves_JList l : leaves (JList l) = leaves_items l 0.
Proof.
  cbn [leaves]. generalize 0%nat.
  induction l as [|item l IH]; intros i; [reflexivity|].
  cbn [leaves_items]. rewrite <- (IH (S i)). reflexivity.
Qed.

Lemma leaves_JDict d : leaves (JDict d) = leaves_dict d.
Proof. reflexivity. Qed.

Lemma leaves_scalar v : is_scalar v = true -> leaves v = [([], v)].
Proof. destruct v; cbn; congruence. Qed.

Lemma leaves_dict_cons k v d :
  leaves_dict ((k, v) :: d) = (under k (leaves v) ++ leaves_dict d)%list.
Proof. reflexivity. Qed.

Lemma rebuildable_JDict sep d :
  rebuildable sep (JDict d) = true ->
  d <> [] /\ keys_unique (dict_keys d) = true /\ forallb (entry_ok sep) d = true.
Proof.
  cbn [rebuildable]. intros H.
  apply andb_true_iff in H as [H H3]. apply andb_true_iff in H as [H1 H2].
  repeat split; auto. destruct d; [discriminate | congruence].
Qed.

Lemma rebuildable_JList sep l :
  rebuildable sep (JList l) = true ->
  l <> [] /\ forallb (rebuildable sep) l = true.
Proof.
  cbn [rebuildable]. intros H. apply andb_true_iff in H as [H1 H2].
  split; auto. destruct l; [discriminate | congruence].
Qed.

Lemma rebuildable_not_scalar sep v :
  rebuildable sep v = true -> is_scalar v = false.
Proof. destruct v; cbn; congruence. Qed.

Lemma good_key_spec sep k :
  good_key sep k = true ->
  k <> "" /\ isdigit k = false /\ contains sep k = false.
Proof.
  unfold good_key. intros H.
  apply andb_true_iff in H as [H H3]. apply andb_true_iff in H as [H1 H2].
  apply negb_true_iff in H1, H2, H3. apply String.eqb_neq in H1. auto.
Qed.

Lemma keys_unique_NoDup ks : keys_unique ks = true -> NoDup ks.
Proof.
  induction ks as [|k ks IH]; cbn [keys_unique]; intros H; constructor.
  - apply andb_true_iff in H as [H _]. apply negb_true_iff in H.
    intros Hin. assert (existsb (String.eqb k) ks = true); [|congruence].
    apply existsb_exists. exists k. split; [exact Hin | apply String.eqb_refl].
  - apply IH. now apply andb_true_iff in H as [_ H].
Qed.

Lemma NoDup_keys_unique ks : NoDup ks -> keys_unique ks = true.
Proof.
  induction 1 as [|k ks Hk Hnd IH]; cbn [keys_unique]; [reflexivity|].
  rewrite IH, andb_true_r. apply negb_true_iff.
  destruct (existsb (String.eqb k) ks) eqn:E; [|reflexivity].
  apply existsb_exists in E as (k' & Hin & Heq).
  apply String.eqb_eq in Heq. subst. contradiction.
Qed.

(** ** Containers under mutation *)

Lemma dict_get_mem k d child : dict_get k d = Some child -> dict_mem k d = true.
Proof.
  induction d as [|[k' v'] d IH]; cbn [dict_get dict_mem]; [discriminate|].
  destruct (String.eqb k k'); auto.
Qed.

Lemma dict_set_get_same k d child :
  dict_get k d = Some child -> dict_set d k child = d.
Proof.
  induction d as [|[k' v'] d IH]; cbn [dict_get dict_set]; [discriminate|].
  destruct (String.eqb k k'); intros H; [congruence|]. now rewrite IH.
Qed.

Lemma dict_get_set k d child : dict_get k (dict_set d k child) = Some child.
Proof.
  induction d as [|[k' v'] d IH]; cbn [dict_get dict_set].
  - now rewrite String.eqb_refl.
  - destruct (String.eqb k k') eqn:E; cbn [dict_get]; rewrite E; auto.
Qed.

Lemma dict_set_set k d c1 c2 :
  dict_set (dict_set d k c1) k c2 = dict_set d k c2.
Proof.
  induction d as [|[k' v'] d IH]; cbn [dict_set].
  - now rewrite String.eqb_refl.
  - destruct (String.eqb k k') eqn:E; cbn [dict_set]; rewrite E;
      [reflexivity | now rewrite IH].
Qed.

Lemma dict_set_app_last k d c1 c2 :
  ~ In k (dict_keys d) ->
  dict_set (d ++ [(k, c1)])%list k c2 = (d ++ [(k, c2)])%list.
Proof.
  intros H. rewrite <- !dict_set_fresh by exact H. apply dict_set_set.
Qed.

Lemma list_set_length l : forall i v, List.length (list_set l i v) = List.length l.
Proof.
  induction l as [|x l IH]; intros [|i] v; cbn [list_set List.length]; auto.
Qed.

Lemma list_get_set l : forall i v,
  (i < List.length l)%nat -> list_get (list_set l i v) i = v.
Proof.
  unfold list_get.
  induction l as [|x l IH]; intros [|i] v; cbn [list_set List.length nth];
    try lia; [reflexivity|]. intros H. apply IH. lia.
Qed.

Lemma list_set_set l : forall i c1 c2,
  list_set (list_set l i c1) i c2 = list_set l i c2.
Proof.
  induction l as [|x l IH]; intros [|i] c1 c2; cbn [list_set]; auto.
  now rewrite IH.
Qed.

Lemma list_set_get_same l : forall i,
  (i < List.length l)%nat -> list_set l i (list_get l i) = l.
Proof.
  unfold list_get.
  induction l as [|x l IH]; intros [|i]; cbn [list_set List.length nth];
    try lia; [reflexivity|]. intros H. rewrite IH; [reflexivity | lia].
Qed.

Lemma list_set_last l x v :
  list_set (l ++ [x])%list (List.length l) v = (l ++ [v])%list.
Proof. induction l as [|y l IH]; cbn; [reflexivity | now rewrite IH]. Qed.

Lemma list_get_last l x : list_get (l ++ [x])%list (List.length l) = x.
Proof. unfold list_get. induction l as [|y l IH]; cbn; auto. Qed.

Lemma pad_in_range l i x : (i < List.length l)%nat -> pad l i x = l.
Proof.
  intros H. unfold pad. replace (S i - List.length l)%nat with 0%nat by lia.
  apply app_nil_r.
Qed.

Lemma pad_next l x : pad l (List.length l) x = (l ++ [x])%list.
Proof.
  unfold pad. now replace (S (List.length l) - List.length l)%nat with 1%nat by lia.
Qed.

Lemma pad_length l i x :
  List.length (pad l i x) = Nat.max (List.length l) (S i).
Proof. unfold pad. rewrite length_app, repeat_length. lia. Qed.

Lemma kind_is_empty nxt : kind_is nxt (empty_for nxt).
Proof. destruct nxt; split; reflexivity. Qed.

Lemma ensure_index_id l i nxt :
  (i < List.length l)%nat -> kind_is nxt (list_get l i) ->
  ensure_index l i nxt = l.
Proof.
  intros Hi [Hl Hd]. unfold ensure_index. cbn zeta.
  rewrite pad_in_range by exact Hi. rewrite Hl, Hd.
  now destruct nxt.
Qed.

Lemma ensure_index_length l i nxt :
  List.length (ensure_index l i nxt) = Nat.max (List.length l) (S i).
Proof.
  unfold ensure_index. cbn zeta.
  repeat match goal with |- context [if ?b then _ else _] => destruct b end;
    rewrite ?list_set_length; apply pad_length.
Qed.

Lemma ensure_index_kind l i nxt :
  kind_is nxt (list_get (ensure_index l i nxt) i).
Proof.
  unfold ensure_index. cbn zeta.
  set (l1 := pad l i (if nxt then JList [] else JDict [])).
  assert (Hi : (i < List.length l1)%nat)
    by (unfold l1; rewrite pad_length; lia).
  destruct nxt; cbn [negb andb].
  - destruct (is_list (list_get l1 i)) eqn:E; cbn [negb].
    + split; [exact E|]. destruct (list_get l1 i); cbn in *; congruence.
    + rewrite list_get_set by exact Hi. split; reflexivity.
  - destruct (is_dict (list_get l1 i)) eqn:E; cbn [negb].
    + split; [|exact E]. destruct (list_get l1 i); cbn in *; congruence.
    + rewrite list_get_set by exact Hi. split; reflexivity.
Qed.

Lemma ensure_index_idem l i nxt :
  ensure_index (ensure_index l i nxt) i nxt = ensure_index l i nxt.
Proof.
  apply ensure_index_id; [rewrite ensure_index_length; lia|].
  apply ensure_index_kind.
Qed.

Lemma ensure_index_next l nxt :
  ensure_index l (List.length l) nxt = (l ++ [empty_for nxt])%list.
Proof.
  unfold ensure_index. cbn zeta. rewrite pad_next.
  fold (empty_for nxt). rewrite list_get_last.
  destruct nxt; reflexivity.
Qed.

Lemma ensure_key_idem d k nxt :
  ensure_key (ensure_key d k nxt) k nxt = ensure_key d k nxt.
Proof.
  unfold ensure_key. destruct (dict_mem k d) eqn:E; [now rewrite E|].
  erewrite dict_get_mem; [reflexivity | apply dict_get_set].
Qed.

Lemma ensure_key_fresh d k nxt :
  ~ In k (dict_keys d) ->
  ensure_key d k nxt = (d ++ [(k, empty_for nxt)])%list.
Proof.
  intros H. unfold ensure_key.
  rewrite (proj2 (dict_mem_false k d) H). now apply dict_set_fresh.
Qed.

Lemma ensure_key_present d k nxt child :
  dict_get k d = Some child -> ensure_key d k nxt = d.
Proof.
  intros H. unfold ensure_key. now rewrite (dict_get_mem _ _ _ H).
Qed.

(** ** [walk] keeps the kind of the container it is given *)

Lemma walk_keeps_kind parts value current c :
  walked_value (walk parts value current) = Some c ->
  is_list c = is_list current /\ is_dict c = is_dict current.
Proof.
  destruct parts as [|part [|next_part after]].
  - cbn. intros [= <-]. auto.
  - rewrite walk_last.
    destruct (isdigit part); [destruct (int part); [|discriminate]|];
      destruct current; intros [= <-]; auto.
  - rewrite walk_step. cbn zeta.
    destruct (isdigit part); [destruct (int part); [|discriminate]|];
      destruct current; try discriminate;
      try (intros [= <-]; auto; fail).
    + destruct (walk _ value _); try discriminate; intros [= <-]; auto.
    + destruct (dict_get part _); [|discriminate].
      destruct (walk _ value _); try discriminate; intros [= <-]; auto.
Qed.

Lemma walk_kind parts value current c :
  walk parts value current = Stored c ->
  is_list c = is_list current /\ is_dict c = is_dict current.
Proof. intros H. apply (walk_keeps_kind parts value). now rewrite H. Qed.

Lemma nth_error_list_set_other l : forall k j v,
  j <> k -> nth_error (list_set l k v) j = nth_error l j.
Proof.
  induction l as [|x l IH]; intros k j v Hne; [reflexivity|].
  destruct k as [|k], j as [|j]; cbn [list_set nth_error];
    try reflexivity; [congruence|]. apply IH. congruence.
Qed.

Lemma nth_error_list_set_same l : forall k v,
  (k < List.length l)%nat -> nth_error (list_set l k v) k = Some v.
Proof.
  induction l as [|x l IH]; intros [|k] v; cbn [list_set nth_error List.length];
    try lia; [reflexivity|]. intros H. apply IH. lia.
Qed.

Lemma nth_error_ensure_index_old l k nxt j :
  (j < List.length l)%nat -> j <> k ->
  nth_error (ensure_index l k nxt) j = nth_error l j.
Proof.
  intros Hj Hne. unfold ensure_index. cbn zeta.
  repeat match goal with |- context [if ?b then _ else _] => destruct b end;
    rewrite ?nth_error_list_set_other by exact Hne;
    unfold pad; now apply nth_error_app1.
Qed.

Lemma nth_error_ensure_index_pad l k nxt j :
  (List.length l <= j < k)%nat ->
  nth_error (ensure_index l k nxt) j = Some (empty_for nxt).
Proof.
  intros Hj. unfold ensure_index. cbn zeta. fold (empty_for nxt).
  assert (Hpad : nth_error (pad l k (empty_for nxt)) j = Some (empty_for nxt)).
  { unfold pad. rewrite nth_error_app2 by lia. apply nth_error_repeat. lia. }
  repeat match goal with |- context [if ?b then _ else _] => destruct b end;
    rewrite ?nth_error_list_set_other by lia; exact Hpad.
Qed.

Lemma walk_all_app E1 E2 current c :
  walk_all E1 current = Stored c ->
  walk_all (E1 ++ E2)%list current = walk_all E2 c.
Proof.
  revert current. induction E1 as [|[p v] E1 IH]; intros current.
  - cbn [walk_all app]. now intros [= ->].
  - rewrite <- app_comm_cons. cbn [walk_all].
    destruct (walk p v current); try discriminate. apply IH.
Qed.

(** ** Entries below one key or one index *)

Lemma under_cons k p v E : under k ((p, v) :: E) = (k :: p, v) :: under k E.
Proof. reflexivity. Qed.

(** Entries whose paths go through the key [k], once [k] is present: the
    child is walked, and the mapping changes at [k] only. *)
Lemma walk_all_under_key k E : forall D child child',
  isdigit k = false ->
  Forall (fun pv => fst pv <> []) E ->
  dict_get k D = Some child ->
  walk_all E child = Stored child' ->
  walk_all (under k E) (JDict D) = Stored (JDict (dict_set D k child')).
Proof.
  induction E as [|[p v] E IH]; intros D child child' Hk HE Hget Hw.
  - cbn in Hw |- *. injection Hw as <-. now rewrite dict_set_get_same.
  - inversion HE as [|? ? Hp HE']; subst. cbn [fst] in Hp.
    destruct p as [|next_part after]; [congruence|].
    rewrite under_cons. cbn [walk_all] in Hw |- *.
    rewrite walk_step. cbn zeta. rewrite Hk.
    rewrite (ensure_key_present _ _ _ _ Hget), Hget.
    destruct (walk (next_part :: after) v child) as [c1| |]; try discriminate.
    rewrite (IH (dict_set D k c1) c1 child' Hk HE' (dict_get_set _ _ _) Hw).
    now rewrite dict_set_set.
Qed.

(** The same through the index [i], once the sequence reaches [i] and
    holds a container of the right kind there. *)
Lemma walk_all_under_index i nxt E : forall L child',
  index_fits i = true ->
  (i < List.length L)%nat ->
  kind_is nxt (list_get L i) ->
  Forall (fun pv => fst pv <> [] /\ is_next_index (fst pv) = nxt) E ->
  walk_all E (list_get L i) = Stored child' ->
  walk_all (under (str i) E) (JList L) = Stored (JList (list_set L i child')).
Proof.
  induction E as [|[p v] E IH]; intros L child' Hfit Hi Hkind HE Hw.
  - cbn in Hw |- *. injection Hw as <-. now rewrite list_set_get_same.
  - inversion HE as [|? ? Hhd HE']; subst. destruct Hhd as [Hp Hnxt].
    cbn [fst] in Hp, Hnxt.
    destruct p as [|next_part after]; [congruence|].
    rewrite under_cons. cbn [walk_all] in Hw |- *.
    rewrite walk_step. cbn zeta. rewrite isdigit_str, (int_str i Hfit), Hnxt.
    rewrite (ensure_index_id _ _ _ Hi Hkind).
    destruct (walk (next_part :: after) v (list_get L i)) as [c1| |] eqn:Hc1;
      try discriminate.
    apply walk_kind in Hc1 as [Hl Hd]. destruct Hkind as [Kl Kd].
    rewrite (IH (list_set L i c1) child').
    + now rewrite list_set_set.
    + exact Hfit.
    + now rewrite list_set_length.
    + rewrite list_get_set by exact Hi. split; congruence.
    + exact HE'.
    + now rewrite list_get_set by exact Hi.
Qed.

(** The first entry through a key creates the child; after that the key
    is present. *)
Lemma walk_ensure_key k p v D :
  isdigit k = false -> p <> [] ->
  walk (k :: p) v (JDict D) =
  walk (k :: p) v (JDict (ensure_key D k (is_next_index p))).
Proof.
  intros Hk Hp. destruct p as [|next_part after]; [congruence|].
  rewrite !walk_step. cbn zeta. rewrite Hk. now rewrite ensure_key_idem.
Qed.

Lemma walk_ensure_index i p v L :
  index_fits i = true ->
  p <> [] ->
  walk (str i :: p) v (JList L) =
  walk (str i :: p) v (JList (ensure_index L i (is_next_index p))).
Proof.
  intros Hfit Hp. destruct p as [|next_part after]; [congruence|].
  rewrite !walk_step. cbn zeta. rewrite isdigit_str, (int_str i Hfit).
  now rewrite ensure_index_idem.
Qed.

(** All the entries of a new child [v] below the key [k]. *)
Lemma walk_all_new_key k v D E :
  isdigit k = false -> ~ In k (dict_keys D) ->
  E <> [] ->
  Forall (fun pv => fst pv <> [] /\ is_next_index (fst pv) = is_list v) E ->
  walk_all E (empty_for (is_list v)) = Stored v ->
  walk_all (under k E) (JDict D) = Stored (JDict (D ++ [(k, v)])%list).
Proof.
  intros Hk Hfresh Hne HE Hw.
  assert (HE' : Forall (fun pv => fst pv <> []) E)
    by (eapply Forall_impl; [|exact HE]; now intros ? [? _]).
  set (D1 := (D ++ [(k, empty_for (is_list v))])%list).
  assert (Hstart : walk_all (under k E) (JDict D) = walk_all (under k E) (JDict D1)).
  { destruct E as [|[p x] E]; [congruence|].
    inversion HE as [|? ? Hhd _]; subst. destruct Hhd as [Hp Hnxt].
    cbn [fst] in Hp, Hnxt.
    rewrite under_cons. cbn [walk_all].
    rewrite (walk_ensure_key k p x D Hk Hp).
    rewrite (walk_ensure_key k p x D1 Hk Hp).
    rewrite Hnxt, (ensure_key_fresh D k _ Hfresh). fold D1.
    erewrite (ensure_key_present D1); [reflexivity|].
    unfold D1. rewrite <- dict_set_fresh by exact Hfresh. apply dict_get_set. }
  rewrite Hstart.
  rewrite (walk_all_under_key k E D1 (empty_for (is_list v)) v Hk HE');
    [| unfold D1; rewrite <- dict_set_fresh by exact Hfresh; apply dict_get_set
     | exact Hw].
  unfold D1. now rewrite dict_set_app_last.
Qed.

(** All the entries of a new element [v] at the next index. *)
Lemma walk_all_new_index v L E :
  index_fits (List.length L) = true ->
  E <> [] ->
  Forall (fun pv => fst pv <> [] /\ is_next_index (fst pv) = is_list v) E ->
  walk_all E (empty_for (is_list v)) = Stored v ->
  walk_all (under (str (List.length L)) E) (JList L) =
  Stored (JList (L ++ [v])%list).
Proof.
  intros Hfit Hne HE Hw.
  set (i := List.length L) in *.
  set (L1 := (L ++ [empty_for (is_list v)])%list).
  assert (Hi : (i < List.length L1)%nat)
    by (unfold L1, i; rewrite length_app; cbn; lia).
  assert (Hget : list_get L1 i = empty_for (is_list v))
    by apply list_get_last.
  assert (Hstart : walk_all (under (str i) E) (JList L) =
                   walk_all (under (str i) E) (JList L1)).
  { destruct E as [|[p x] E]; [congruence|].
    inversion HE as [|? ? Hhd _]; subst. destruct Hhd as [Hp Hnxt].
    cbn [fst] in Hp, Hnxt.
    rewrite under_cons. cbn [walk_all].
    rewrite (walk_ensure_index i p x L Hfit Hp).
    rewrite (walk_ensure_index i p x L1 Hfit Hp).
    rewrite Hnxt. unfold i at 2. rewrite ensure_index_next. fold L1.
    rewrite (ensure_index_id L1); [reflexivity | exact Hi |].
    rewrite Hget. apply kind_is_empty. }
  rewrite Hstart.
  rewrite (walk_all_under_index i (is_list v) E L1 v Hfit Hi);
    [| rewrite Hget; apply kind_is_empty | exact HE | now rewrite Hget].
  unfold L1, i. now rewrite list_set_last.
Qed.

Section RoundTrip.
Variable c : ascii.
Hypothesis c_not_digit : is_digit_char c = false.

Let sep : string := String c "".

Lemma entry_ok_spec kv :
  entry_ok sep kv = true -> key_facts sep (fst kv) /\ ok sep (snd kv).
Proof.
  unfold entry_ok. intros H. apply andb_true_iff in H as [H1 H2].
  split; [now apply good_key_spec | exact H2].
Qed.

(** Induction over the values [ok] accepts. *)
Lemma ok_ind (P : json -> Prop) :
  (forall v, is_scalar v = true -> P v) ->
  (forall d, d <> [] -> NoDup (dict_keys d) ->
     Forall (fun kv => key_facts sep (fst kv) /\ ok sep (snd kv) /\ P (snd kv)) d ->
     P (JDict d)) ->
  (forall l, l <> [] ->
     Forall (fun x => rebuildable sep x = true /\ P x) l -> P (JList l)) ->
  forall v, ok sep v -> P v.
Proof.
  intros Hs Hd Hl.
  induction v as [| b | n | s | l IH | d IH] using json_ind; intros Hok;
    try (apply Hs; reflexivity).
  - unfold ok in Hok. cbn [is_scalar orb] in Hok.
    apply rebuildable_JList in Hok as [Hne Hall].
    apply Hl; [exact Hne|]. clear Hne.
    induction IH as [|x l Hx _ IHl]; [constructor|].
    cbn [forallb] in Hall. apply andb_true_iff in Hall as [Hrx Hall].
    constructor; [|now apply IHl].
    split; [exact Hrx|]. apply Hx. unfold ok. rewrite Hrx. apply orb_true_r.
  - unfold ok in Hok. cbn [is_scalar orb] in Hok.
    apply rebuildable_JDict in Hok as (Hne & Hu & Hall).
    apply Hd; [exact Hne | now apply keys_unique_NoDup |]. clear Hne Hu.
    induction IH as [|kv d Hkv _ IHd]; [constructor|].
    cbn [forallb] in Hall. apply andb_true_iff in Hall as [Hkv' Hall].
    constructor; [|now apply IHd].
    apply entry_ok_spec in Hkv' as [Hk Hv]. auto.
Qed.

Lemma rebuildable_ok v : rebuildable sep v = true -> ok sep v.
Proof. intros H. unfold ok. rewrite H. apply orb_true_r. Qed.

(** *** Shape of the paths *)

Lemma Forall_under (Q : list string -> Prop) k E :
  Forall (fun pv => Q (k :: fst pv)) E ->
  Forall (fun pv => Q (fst pv)) (under k E).
Proof. unfold under. intros H. apply Forall_map. exact H. Qed.

Lemma Forall_leaves_dict (Q : list string -> Prop) d :
  Forall (fun kv => Forall (fun pv => Q (fst kv :: fst pv)) (leaves (snd kv))) d ->
  Forall (fun pv => Q (fst pv)) (leaves_dict d).
Proof.
  induction 1 as [|[k v] d Hkv _ IH]; [constructor|].
  rewrite leaves_dict_cons. apply Forall_app. split; [|exact IH].
  now apply Forall_under.
Qed.

Lemma Forall_leaves_items (Q : list string -> Prop) l : forall i,
  (forall j, Forall (fun x => Forall (fun pv => Q (str j :: fst pv)) (leaves x)) l) ->
  Forall (fun pv => Q (fst pv)) (leaves_items l i).
Proof.
  induction l as [|x l IH]; intros i H; [constructor|].
  cbn [leaves_items]. apply Forall_app. split.
  - apply Forall_under. specialize (H i). now inversion H.
  - apply IH. intros j. specialize (H j). now inversion H.
Qed.

Lemma leaves_sep_free v :
  ok sep v -> Forall (fun pv => sep_free sep (fst pv)) (leaves v).
Proof.
  revert v. apply ok_ind.
  - intros v Hv. rewrite leaves_scalar by exact Hv.
    repeat constructor.
  - intros d _ _ Hall. rewrite leaves_JDict. apply Forall_leaves_dict.
    eapply Forall_impl; [|exact Hall]. cbn beta.
    intros [k v] ((_ & _ & Hk) & _ & HP). cbn [fst snd] in *.
    eapply Forall_impl; [|exact HP]. intros pv Hpv. now constructor.
  - intros l _ Hall. rewrite leaves_JList. apply Forall_leaves_items.
    intros j. eapply Forall_impl; [|exact Hall]. cbn beta.
    intros x [_ HP]. eapply Forall_impl; [|exact HP].
    intros pv Hpv. constructor; [apply contains_str, c_not_digit | exact Hpv].
Qed.

Lemma leaves_nonempty v : ok sep v -> leaves v <> [].
Proof.
  revert v. apply ok_ind.
  - intros v Hv. now rewrite leaves_scalar by exact Hv.
  - intros [|[k v] d] Hne _ Hall; [congruence|].
    rewrite leaves_JDict, leaves_dict_cons.
    inversion Hall as [|? ? (_ & _ & HP) _]; subst. cbn [snd] in HP.
    destruct (leaves v); [congruence | discriminate].
  - intros [|x l] Hne Hall; [congruence|].
    rewrite leaves_JList. cbn [leaves_items].
    inversion Hall as [|? ? (_ & HP) _]; subst.
    destruct (leaves x); [congruence | discriminate].
Qed.

Lemma leaves_descend v :
  rebuildable sep v = true ->
  Forall (fun pv => descends v (fst pv)) (leaves v).
Proof.
  intros Hv. pose proof (rebuildable_ok v Hv) as Hok.
  revert v Hok Hv. apply (ok_ind (fun v => rebuildable sep v = true ->
    Forall (fun pv => descends v (fst pv)) (leaves v))).
  - intros v Hs Hr. apply rebuildable_not_scalar in Hr. congruence.
  - intros d _ _ Hall _. rewrite leaves_JDict.
    apply (Forall_leaves_dict (descends (JDict d))).
    eapply Forall_impl; [|exact Hall]. cbn beta.
    intros [k v] ((_ & Hk & _) & _ & _). cbn [fst snd] in *.
    apply Forall_forall. intros [q x] _. cbn [fst].
    split; [discriminate|]. cbn [is_next_index is_list].
    destruct q; [reflexivity | exact Hk].
  - intros l _ Hall _. rewrite leaves_JList.
    apply (Forall_leaves_items (descends (JList l))).
    intros j. eapply Forall_impl; [|exact Hall]. cbn beta.
    intros x [Hr HP]. specialize (HP Hr).
    eapply Forall_impl; [|exact HP]. intros [q y] [Hq _]. cbn [fst] in *.
    split; [discriminate|]. cbn [is_next_index is_list].
    destruct q; [congruence | apply isdigit_str].
Qed.

(** *** Paths are pairwise distinct *)

Lemma paths_under k E : paths (under k E) = map (cons k) (paths E).
Proof. unfold paths, under. rewrite !map_map. reflexivity. Qed.

Lemma paths_app E1 E2 : paths (E1 ++ E2)%list = (paths E1 ++ paths E2)%list.
Proof. apply map_app. Qed.

Lemma in_leaves_dict_head d p :
  In p (paths (leaves_dict d)) ->
  exists k q, p = k :: q /\ In k (dict_keys d).
Proof.
  induction d as [|[k v] d IH]; [intros []|].
  rewrite leaves_dict_cons, paths_app, paths_under, in_app_iff, in_map_iff.
  intros [(q & <- & _)|H].
  - exists k, q. split; [reflexivity | now left].
  - destruct (IH H) as (k' & q & -> & Hin). exists k', q.
    split; [reflexivity | now right].
Qed.

Lemma in_leaves_items_head l : forall i p,
  In p (paths (leaves_items l i)) ->
  exists j q, p = str j :: q /\ (i <= j)%nat.
Proof.
  induction l as [|x l IH]; intros i p; [intros []|].
  cbn [leaves_items].
  rewrite paths_app, paths_under, in_app_iff, in_map_iff.
  intros [(q & <- & _)|H].
  - exists i, q. split; [reflexivity | lia].
  - destruct (IH _ _ H) as (j & q & -> & Hle). exists j, q.
    split; [reflexivity | lia].
Qed.

Lemma NoDup_cons_map (k : string) (ps : list (list string)) :
  NoDup ps -> NoDup (map (cons k) ps).
Proof.
  induction 1 as [|p ps Hp Hnd IH]; cbn [map]; constructor; [|exact IH].
  rewrite in_map_iff. intros (q & Heq & Hq). injection Heq as ->.
  contradiction.
Qed.

Lemma leaves_NoDup v : ok sep v -> NoDup (paths (leaves v)).
Proof.
  revert v. apply ok_ind.
  - intros v Hv. rewrite leaves_scalar by exact Hv.
    repeat constructor. intros [].
  - intros d _ Hnd Hall. rewrite leaves_JDict.
    induction Hall as [|[k v] d (_ & _ & HP) _ IH]; [constructor|].
    cbn [dict_keys map fst snd] in *. inversion Hnd as [|? ? Hk Hnd']; subst.
    rewrite leaves_dict_cons, paths_app, paths_under.
    apply NoDup_app; [now apply NoDup_cons_map | now apply IH |].
    intros p Hp Hp'. apply in_map_iff in Hp as (q & <- & _).
    apply in_leaves_dict_head in Hp' as (k' & q' & Heq & Hin).
    injection Heq as -> _. contradiction.
  - intros l _ Hall. rewrite leaves_JList. generalize 0%nat.
    induction Hall as [|x l (_ & HP) _ IH]; intros i; [constructor|].
    cbn [leaves_items]. rewrite paths_app, paths_under.
    apply NoDup_app; [now apply NoDup_cons_map | apply IH |].
    intros p Hp Hp'. apply in_map_iff in Hp as (q & <- & _).
    apply in_leaves_items_head in Hp' as (j & q' & Heq & Hle).
    injection Heq as Heq _. apply str_inj in Heq. lia.
Qed.

(** *** Flat keys *)

Lemma new_key_nonempty P k : k <> "" -> new_key P sep k <> "".
Proof.
  intros Hk. unfold new_key. destruct (String.eqb_spec P ""); [exact Hk|].
  now apply append_nonempty_l.
Qed.

Lemma new_key_inj P x y : new_key P sep x = new_key P sep y -> x = y.
Proof.
  unfold new_key. destruct (String.eqb P ""); [auto|].
  intros H. apply append_inj_l in H. now apply append_inj_l in H.
Qed.

Lemma new_key_of_nonempty P k :
  P <> "" -> new_key P sep k = P ++ sep ++ k.
Proof.
  intros HP. unfold new_key. now destruct (String.eqb_spec P "").
Qed.

Lemma concat_cons k q :
  q <> [] -> concat sep (k :: q) = k ++ sep ++ concat sep q.
Proof. destruct q; [congruence | reflexivity]. Qed.

Lemma key_of_cons P k q :
  k <> "" -> q <> [] -> key_of sep (new_key P sep k) q = key_of sep P (k :: q).
Proof.
  intros Hk Hq. unfold key_of. rewrite (concat_cons k q Hq).
  rewrite (new_key_of_nonempty (new_key P sep k))
    by now apply new_key_nonempty.
  unfold new_key. destruct (String.eqb_spec P ""); [reflexivity|].
  now rewrite !append_assoc.
Qed.

Lemma key_of_single P k : key_of sep P [k] = new_key P sep k.
Proof. reflexivity. Qed.

Lemma key_of_inj P p q :
  p <> [] -> q <> [] -> sep_free sep p -> sep_free sep q ->
  key_of sep P p = key_of sep P q -> p = q.
Proof.
  intros Hp Hq Fp Fq H. apply new_key_inj in H.
  rewrite <- (split_concat c p Hp Fp), <- (split_concat c q Hq Fq).
  fold sep. now rewrite H.
Qed.

Lemma dict_keys_entries P E :
  dict_keys (entries sep P E) = map (key_of sep P) (paths E).
Proof. unfold dict_keys, entries, paths. now rewrite !map_map. Qed.

Lemma entries_app P E1 E2 :
  entries sep P (E1 ++ E2)%list = (entries sep P E1 ++ entries sep P E2)%list.
Proof. apply map_app. Qed.

Lemma entries_under P k E :
  k <> "" -> Forall (fun pv => fst pv <> []) E ->
  entries sep (new_key P sep k) E = entries sep P (under k E).
Proof.
  intros Hk HE. unfold entries, under. rewrite map_map. cbn [fst snd].
  apply map_ext_Forall. eapply Forall_impl; [|exact HE].
  intros [q v] Hq. cbn [fst snd] in *. now rewrite key_of_cons.
Qed.

Lemma entries_NoDup P E :
  NoDup (paths E) ->
  Forall (fun pv => fst pv <> [] /\ sep_free sep (fst pv)) E ->
  NoDup (dict_keys (entries sep P E)).
Proof.
  intros Hnd HE. rewrite dict_keys_entries.
  apply NoDup_map_NoDup_ForallPairs; [|exact Hnd].
  intros p q Hp Hq Heq. unfold paths in Hp, Hq.
  apply in_map_iff in Hp as (pv & <- & Hpv).
  apply in_map_iff in Hq as (qv & <- & Hqv).
  rewrite Forall_forall in HE.
  destruct (HE _ Hpv) as [? ?], (HE _ Hqv) as [? ?].
  eapply key_of_inj; eauto.
Qed.

(** *** What [flatten] returns *)

Lemma NoDup_app_inv {A : Type} (l1 l2 : list A) :
  NoDup (l1 ++ l2) ->
  NoDup l1 /\ NoDup l2 /\ (forall a, In a l2 -> ~ In a l1).
Proof.
  induction l1 as [|x l1 IH]; cbn [app].
  - intros H. repeat split; [constructor | exact H | auto].
  - intros H. inversion H as [|? ? Hx Hnd]; subst.
    destruct (IH Hnd) as (H1 & H2 & H3).
    rewrite in_app_iff in Hx. repeat split; [constructor; tauto | exact H2 |].
    intros a Ha [->|Hin]; [tauto | exact (H3 a Ha Hin)].
Qed.

Lemma update_fresh_app result other :
  NoDup (dict_keys result ++ dict_keys other) ->
  dict_update result other = (result ++ other)%list.
Proof.
  intros H. apply NoDup_app_inv in H as (_ & H2 & H3).
  now apply dict_update_fresh.
Qed.

Lemma container_paths_nonempty v :
  is_scalar v = false -> Forall (fun pv => fst pv <> []) (leaves v).
Proof.
  destruct v as [| | | |l|d]; try discriminate; intros _.
  - rewrite leaves_JList.
    apply (Forall_leaves_items (fun p => p <> [])). intros j.
    apply Forall_forall. intros x _. apply Forall_forall. discriminate.
  - rewrite leaves_JDict.
    apply (Forall_leaves_dict (fun p => p <> [])).
    apply Forall_forall. intros x _. apply Forall_forall. discriminate.
Qed.

(** One entry of a mapping, stored after [acc]. *)
Lemma flat_spec_entry P depth k v acc :
  key_facts sep k -> flat_spec sep v ->
  NoDup (dict_keys acc ++ dict_keys (entries sep P (under k (leaves v)))) ->
  flatten_entry sep None depth P k v acc =
  (acc ++ entries sep P (under k (leaves v)))%list.
Proof.
  intros (Hk & _ & _) Hv HN. rewrite flatten_entry_eq. cbn zeta.
  cbn [depth_reached].
  destruct v as [| b | n | s | l | d];
    try (apply dict_set_fresh;
         apply NoDup_app_inv in HN as (_ & _ & HN);
         apply HN; now left).
  - cbn [flat_spec] in Hv.
    rewrite <- entries_under in HN |- *
      by (try exact Hk; now apply container_paths_nonempty).
    rewrite leaves_JList in HN |- *.
    apply Hv; [now apply new_key_nonempty | exact HN].
  - cbn [flat_spec] in Hv.
    rewrite <- entries_under in HN |- *
      by (try exact Hk; now apply container_paths_nonempty).
    rewrite leaves_JDict in HN |- *.
    rewrite Hv by now apply NoDup_app_inv in HN.
    now apply update_fresh_app.
Qed.

(** One item of a sequence, stored after [result]. *)
Lemma flat_spec_item nk depth i x result :
  nk <> "" -> rebuildable sep x = true -> flat_spec sep x ->
  NoDup (dict_keys result ++ dict_keys (entries sep nk (under (str i) (leaves x)))) ->
  match x with
  | JDict d =>
      dict_update result
        (flatten d sep (nk ++ sep ++ str i) None (depth + 1))
  | JList _ =>
      dict_update result (flatten [(str i, x)] sep nk None (depth + 1))
  | _ => dict_set result (nk ++ sep ++ str i) x
  end = (result ++ entries sep nk (under (str i) (leaves x)))%list.
Proof.
  intros Hnk Hr Hx HN.
  rewrite <- (new_key_of_nonempty nk (str i) Hnk).
  rewrite <- entries_under in HN |- *
    by (try apply str_nonempty; apply container_paths_nonempty;
        now apply rebuildable_not_scalar in Hr).
  destruct x as [| | | | l | d];
    try (apply rebuildable_not_scalar in Hr; discriminate);
    cbn [flat_spec] in Hx.
  - rewrite leaves_JList in HN |- *.
    unfold flatten. cbn [fold_left fst snd].
    rewrite flatten_entry_eq. cbn zeta. cbn [depth_reached].
    rewrite Hx;
      [| apply new_key_nonempty, str_nonempty
       | now apply NoDup_app_inv in HN].
    cbn [app]. now apply update_fresh_app.
  - rewrite leaves_JDict in HN |- *.
    rewrite Hx by now apply NoDup_app_inv in HN.
    now apply update_fresh_app.
Qed.

Lemma flat_spec_all v : ok sep v -> flat_spec sep v.
Proof.
  revert v. apply ok_ind.
  - intros v Hv. destruct v; try exact I; discriminate.
  - intros d _ _ Hall. cbn [flat_spec]. intros P depth HN.
    unfold flatten.
    enough (H : forall acc,
               NoDup (dict_keys acc ++ dict_keys (entries sep P (leaves_dict d))) ->
               fold_left
                 (fun r kv =>
                    flatten_entry sep None depth P (fst kv) (snd kv) r) d acc =
               (acc ++ entries sep P (leaves_dict d))%list)
      by (apply (H []); exact HN).
    clear HN.
    induction Hall as [|[k v] d (Hk & _ & Hv) _ IH]; intros acc HN.
    + cbn. now rewrite app_nil_r.
    + cbn [fst snd] in *. cbn [fold_left fst snd].
      rewrite leaves_dict_cons, entries_app in HN |- *.
      rewrite dict_keys_app, app_assoc in HN.
      rewrite flat_spec_entry;
        [| exact Hk | exact Hv | now apply NoDup_app_remove_r in HN].
      rewrite IH by now rewrite dict_keys_app.
      now rewrite app_assoc.
  - intros l _ Hall. cbn [flat_spec]. intros nk depth i result Hnk.
    revert i result.
    induction Hall as [|x l (Hr & Hx) _ IH]; intros i result HN.
    + cbn. now rewrite app_nil_r.
    + cbn [leaves_items] in HN. cbn [flatten_items leaves_items].
      rewrite entries_app in HN |- *.
      rewrite dict_keys_app, app_assoc in HN.
      rewrite (flat_spec_item nk depth i x result Hnk Hr Hx)
        by now apply NoDup_app_remove_r in HN.
      rewrite IH by now rewrite dict_keys_app.
      now rewrite app_assoc.
Qed.

(** *** What [unflatten] rebuilds *)

Lemma indices_fit_JList l :
  indices_fit (JList l) = true ->
  (forall i, (i < List.length l)%nat -> index_fits i = true) /\
  forallb indices_fit l = true.
Proof.
  cbn [indices_fit]. intros H. apply andb_true_iff in H as [H1 H2].
  split; [|exact H2]. intros i Hi.
  rewrite forallb_forall in H1. apply H1, in_seq. lia.
Qed.

Lemma rebuilt_start v :
  rebuildable sep v = true -> indices_fit v = true -> rebuilt v ->
  walk_all (leaves v) (empty_for (is_list v)) = Stored v.
Proof.
  intros Hr Hfit Hv.
  destruct v as [| | | | l | d];
    try (apply rebuildable_not_scalar in Hr; discriminate);
    cbn [rebuilt is_list empty_for] in *.
  - rewrite leaves_JList. apply (Hv []).
    now apply indices_fit_JList.
  - rewrite leaves_JDict. apply (Hv []). auto.
Qed.

Lemma rebuilt_entry k v D :
  key_facts sep k -> ok sep v -> indices_fit v = true -> rebuilt v ->
  ~ In k (dict_keys D) ->
  walk_all (under k (leaves v)) (JDict D) =
  Stored (JDict (D ++ [(k, v)])%list).
Proof.
  intros (_ & Hk & _) Hok Hfit Hv Hfresh.
  destruct (is_scalar v) eqn:Hs.
  - rewrite leaves_scalar by exact Hs. cbn [under map fst snd walk_all].
    rewrite walk_last, Hk. now rewrite dict_set_fresh.
  - unfold ok in Hok. rewrite Hs in Hok. cbn [orb] in Hok.
    apply walk_all_new_key; auto.
    + apply leaves_nonempty. now apply rebuildable_ok.
    + now apply leaves_descend.
    + now apply rebuilt_start.
Qed.

Lemma rebuilt_all v : ok sep v -> indices_fit v = true -> rebuilt v.
Proof.
  revert v. apply (ok_ind (fun v => indices_fit v = true -> rebuilt v)).
  - intros v Hv _. destruct v; try exact I; discriminate.
  - intros d _ Hnd Hall Hfit. cbn [rebuilt]. cbn [indices_fit] in Hfit.
    induction Hall as [|[k v] d (Hk & Hok & Hv) _ IH]; intros D Hfresh.
    + cbn. now rewrite app_nil_r.
    + cbn [fst snd dict_keys map] in *.
      cbn [forallb snd] in Hfit. apply andb_true_iff in Hfit as [Hfv Hfd].
      inversion Hnd as [|? ? Hkd Hnd']; subst.
      rewrite leaves_dict_cons.
      rewrite (walk_all_app _ _ _ _
                 (rebuilt_entry k v D Hk Hok Hfv (Hv Hfv)
                    (Hfresh k (or_introl eq_refl)))).
      rewrite (IH Hnd' Hfd).
      * now rewrite <- app_assoc.
      * intros k' Hk'. rewrite dict_keys_app, in_app_iff.
        cbn [dict_keys map fst In].
        intros [H|[H|[]]].
        -- apply (Hfresh k'); [right; exact Hk' | exact H].
        -- subst k'. exact (Hkd Hk').
  - intros l _ Hall Hfit. cbn [rebuilt].
    apply indices_fit_JList in Hfit as [_ Hfit].
    induction Hall as [|x l (Hr & Hx) _ IH]; intros L Hidx.
    + cbn. now rewrite app_nil_r.
    + cbn [forallb] in Hfit. apply andb_true_iff in Hfit as [Hfx Hfl].
      cbn [List.length] in Hidx. cbn [leaves_items].
      rewrite (walk_all_app _ _ _ (JList (L ++ [x])%list)).
      * replace (S (List.length L)) with (List.length (L ++ [x])%list)
          by (rewrite length_app; cbn; lia).
        rewrite (IH Hfl).
        -- now rewrite <- app_assoc.
        -- intros i Hi. apply Hidx. rewrite length_app in Hi. cbn in Hi. lia.
      * apply walk_all_new_index.
        -- apply Hidx. lia.
        -- apply leaves_nonempty. now apply rebuildable_ok.
        -- now apply leaves_descend.
        -- apply rebuilt_start; [exact Hr | exact Hfx | exact (Hx Hfx)].
Qed.

(** [unflatten] on the entries of a mapping, keys joined. *)
Lemma unflatten_loop_entries E : forall result r,
  Forall (fun pv => fst pv <> [] /\ sep_free sep (fst pv)) E ->
  walk_all E result = Stored r ->
  unflatten_loop (entries sep "" E) sep result = Completed r.
Proof.
  induction E as [|[p v] E IH]; intros result r HE Hw.
  - cbn in Hw |- *. congruence.
  - inversion HE as [|? ? Hhd HE']; subst. destruct Hhd as [Hp Hf].
    cbn [fst] in Hp, Hf. cbn [entries sep map fst snd unflatten_loop].
    change (String.eqb sep "") with false. cbn iota.
    unfold key_of. change (new_key "" sep (concat sep p)) with (concat sep p).
    unfold sep at 1 2. rewrite (split_concat c p Hp Hf).
    cbn [walk_all] in Hw.
    destruct (walk p v result); try discriminate.
    now apply IH.
Qed.

Lemma rebuildable_root_ok tree :
  tree <> [] -> rebuildable_root sep tree = true -> ok sep (JDict tree).
Proof.
  intros Hne H. apply rebuildable_ok. cbn [rebuildable].
  unfold rebuildable_root in H. fold sep.
  destruct tree; [congruence | exact H].
Qed.

Lemma roundtrip_rebuildable tree :
  rebuildable_root sep tree = true ->
  indices_fit (JDict tree) = true ->
  unflatten (flatten tree sep "" None 0) sep = Completed (JDict tree).
Proof.
  intros H Hfit. destruct tree as [|kv tree]; [reflexivity|].
  assert (Hok : ok sep (JDict (kv :: tree)))
    by now apply rebuildable_root_ok.
  assert (Hr : rebuildable sep (JDict (kv :: tree)) = true) by exact H.
  assert (HE : Forall (fun pv => fst pv <> [] /\ sep_free sep (fst pv))
                 (leaves_dict (kv :: tree))).
  { rewrite <- leaves_JDict. apply Forall_forall. intros pv Hpv.
    pose proof (leaves_descend _ Hr) as H1.
    pose proof (leaves_sep_free _ Hok) as H2.
    rewrite Forall_forall in H1, H2.
    split; [apply (H1 pv Hpv) | apply (H2 pv Hpv)]. }
  pose proof (flat_spec_all _ Hok) as Hflat. cbn [flat_spec] in Hflat.
  rewrite Hflat.
  - unfold unflatten. apply unflatten_loop_entries; [exact HE|].
    apply (rebuilt_all _ Hok Hfit []). auto.
  - apply entries_NoDup; [|exact HE].
    rewrite <- leaves_JDict. now apply leaves_NoDup.
Qed.

End RoundTrip.

(** * The properties of the specification *)

(** ** Round trip *)

(** C1, amended: for a separator of one ASCII character that is not a
    digit, and a tree whose keys are unique, not empty, not digit-only for
    [isdigit] and free of the separator at every depth, whose nested
    mappings and sequences are not empty, whose sequences hold mappings
    and sequences only and have indices [int] reads back, [unflatten] of
    [flatten] of the tree completes and returns the tree. *)
Theorem roundtrip (c : ascii) (tree : dict) :
  is_ascii_char c = true ->
  is_digit_char c = false ->
  rebuildable_root (String c "") tree = true ->
  indices_fit (JDict tree) = true ->
  unflatten (flatten tree (String c "") "" None 0) (String c "") =
  Completed (JDict tree).
Proof. intros _ Hc Ht Hfit. now apply roundtrip_rebuildable. Qed.

(** ** Sequences inside sequences *)

(** C4: when the item at index [i] of a sequence is itself a sequence,
    the loop over the items stores the result of [flatten] on the mapping
    [{str(i): item}] with the prefix [new_key] of the sequence; and
    [flatten({"a": [[1,2],[3,4]]})] is
    [{"a.0.0": 1, "a.0.1": 2, "a.1.0": 3, "a.1.1": 4}]. *)
Theorem flatten_nested_list
    (separator : string) (max_depth : option Z) (current_depth : Z)
    (prefix key : string) (before inner after : list json) (result : dict) :
  depth_reached max_depth current_depth = false ->
  let nk := new_key prefix separator key in
  let i := List.length before in
  flatten_entry separator max_depth current_depth prefix key
    (JList (before ++ JList inner :: after)%list) result =
  flatten_items separator max_depth current_depth nk after (S i)
    (dict_update
       (flatten_items separator max_depth current_depth nk before 0 result)
       (flatten [(str i, JList inner)] separator nk max_depth
          (current_depth + 1)))
  /\
  flatten
    [("a", JList [JList [JNum 1; JNum 2]; JList [JNum 3; JNum 4]])]
    "." "" None 0 =
  [("a.0.0", JNum 1); ("a.0.1", JNum 2); ("a.1.0", JNum 3); ("a.1.1", JNum 4)].
Proof.
  intros Hd nk i. split; [|reflexivity].
  rewrite flatten_entry_eq. cbn zeta. rewrite Hd.
  rewrite flatten_items_app. cbn [flatten_items].
  now rewrite Nat.add_0_r.
Qed.

Lemma flatten_nested_list_witness :
  depth_reached (Some 2%Z) 0 = false /\
  flatten_entry "." (Some 2%Z) 0 "p" "a"
    (JList [JNum 7; JList [JNum 1; JList [JNum 2]]; JNum 8]) [] =
  [("p.a.0", JNum 7); ("p.a.1.0", JNum 1); ("p.a.1.1", JList [JNum 2]);
   ("p.a.2", JNum 8)].
Proof.
  split; [reflexivity|].
  etransitivity;
    [exact (proj1 (flatten_nested_list "." (Some 2%Z) 0 "p" "a"
                     [JNum 7] [JNum 1; JList [JNum 2]] [JNum 8] []
                     eq_refl))
    | reflexivity].
Defined.

(** ** Depth limit *)

Lemma flatten_reached data separator prefix max_depth current_depth :
  depth_reached max_depth current_depth = true ->
  forall acc,
    fold_left
      (fun r kv =>
         flatten_entry separator max_depth current_depth prefix
           (fst kv) (snd kv) r) data acc =
    fold_left
      (fun r kv => dict_set r (new_key prefix separator (fst kv)) (snd kv))
      data acc.
Proof.
  intros Hd. induction data as [|kv data IH]; intros acc; [reflexivity|].
  cbn [fold_left]. rewrite flatten_entry_eq. cbn zeta. rewrite Hd. apply IH.
Qed.

(** C5: once [current_depth >= max_depth], every pair of the mapping is
    stored under its [new_key] with its value as it is, whatever the
    value, and nothing else is stored; and
    [flatten({"a":{"b":{"c":{"d":"v"}}}}, max_depth=1)] is
    [{"a.b": {"c": {"d": "v"}}}]. *)
Theorem flatten_depth_limit
    (data : dict) (separator prefix : string) (m current_depth : Z) :
  (m <= current_depth)%Z ->
  flatten data separator prefix (Some m) current_depth =
  fold_left
    (fun r kv => dict_set r (new_key prefix separator (fst kv)) (snd kv))
    data []
  /\
  flatten [("a", JDict [("b", JDict [("c", JDict [("d", JStr "v")])])])]
    "." "" (Some 1%Z) 0 =
  [("a.b", JDict [("c", JDict [("d", JStr "v")])])].
Proof.
  intros Hm. split; [|reflexivity].
  apply flatten_reached. cbn [depth_reached]. now apply Z.leb_le.
Qed.

Lemma flatten_depth_limit_witness :
  (1 <= 3)%Z /\
  flatten [("x", JList [JNum 1]); ("y", JDict [("z", JNull)])] "." "p"
    (Some 1%Z) 3 =
  [("p.x", JList [JNum 1]); ("p.y", JDict [("z", JNull)])].
Proof.
  split; [lia|].
  etransitivity;
    [exact (proj1 (flatten_depth_limit
                     [("x", JList [JNum 1]); ("y", JDict [("z", JNull)])]
                     "." "p" 1 3 ltac:(lia)))
    | reflexivity].
Defined.

(** C10: with [max_depth = 0] the result of [flatten] on a mapping is
    that mapping, pair for pair. *)
Theorem flatten_depth_zero (data : dict) (separator : string) :
  dict_wf data ->
  flatten data separator "" (Some 0%Z) 0 = data.
Proof.
  intros Hwf. unfold flatten. rewrite flatten_reached by reflexivity.
  change (fold_left
            (fun r kv => dict_set r (new_key "" separator (fst kv)) (snd kv))
            data [])
    with (dict_update [] data).
  rewrite dict_update_fresh; [reflexivity | exact Hwf | auto].
Qed.

Lemma flatten_depth_zero_witness :
  dict_wf [("a", JDict [("b", JNum 1)]); ("c", JList [JNull])] /\
  flatten [("a", JDict [("b", JNum 1)]); ("c", JList [JNull])] "."
    "" (Some 0%Z) 0 =
  [("a", JDict [("b", JNum 1)]); ("c", JList [JNull])].
Proof.
  assert (H : dict_wf [("a", JDict [("b", JNum 1)]); ("c", JList [JNull])])
    by (apply keys_unique_NoDup; reflexivity).
  split; [exact H | exact (flatten_depth_zero _ "." H)].
Defined.

(** ** Scalars only *)

(** C9: without [max_depth], every value of the flat mapping [flatten]
    returns is a scalar. *)
Theorem flatten_values_scalar
    (data : dict) (separator prefix : string) (current_depth : Z) :
  Forall (fun kv => is_scalar (snd kv) = true)
    (flatten data separator prefix None current_depth).
Proof. exact (flat_scalar_all (JDict data) separator prefix current_depth). Qed.

(** ** Root of the result *)

(** C8: whichever [return result] ends [unflatten], the final one or one
    inside the loop, the value returned is a mapping. *)
Theorem unflatten_returns_mapping (data : dict) (separator : string) (r : json) :
  unflatten data separator = Completed r \/
  unflatten data separator = EarlyReturn r ->
  exists d, r = JDict d.
Proof.
  intros H.
  pose proof (unflatten_loop_root data separator (JDict []) eq_refl) as Hroot.
  fold (unflatten data separator) in Hroot.
  assert (Hr : is_dict r = true)
    by (destruct H as [H|H]; rewrite H in Hroot; exact Hroot).
  destruct r; try discriminate. eauto.
Qed.

(** ** Input that is not a mapping *)

(** C7: in flatten mode [process_file] raises [ValueError] for a
    document that is not a mapping, and nothing in it catches the
    exception. *)
Theorem process_file_flatten_shape
    (data : json) (separator : string) (max_depth : option Z) :
  is_dict data = false ->
  process_file data "flatten" separator max_depth =
  Raise (ValueError "Input must be a JSON object for flatten mode").
Proof. intros H. destruct data; try reflexivity; discriminate. Qed.

(** ** Growing a sequence on the way down *)

(** C6, amended: when a digit-only part that is not the last part meets
    a sequence and the walk returns, [int] gave an index [k]; the sequence
    is grown to at least [k+1] elements by appending empty mappings, or
    empty sequences when the look-ahead [is_next_index] holds; the
    elements it had, other than the one at [k], stay; and the element at
    [k] is a sequence when [is_next_index] holds and a mapping
    otherwise. *)
Theorem walk_digit_part
    (part next_part : string) (after : list string) (value : json)
    (l : list json) (r : json) :
  isdigit part = true ->
  walked_value (walk (part :: next_part :: after) value (JList l)) = Some r ->
  let nxt := is_next_index (next_part :: after) in
  exists k l',
    int part = Parsed k /\
    r = JList l' /\
    List.length l' = Nat.max (List.length l) (S k) /\
    (forall j, (j < List.length l)%nat -> j <> k ->
               nth_error l' j = nth_error l j) /\
    (forall j, (List.length l <= j < k)%nat ->
               nth_error l' j = Some (empty_for nxt)) /\
    (exists e, nth_error l' k = Some e /\ kind_is nxt e).
Proof.
  intros Hdigit Hw nxt. rewrite walk_step in Hw. cbn zeta in Hw.
  rewrite Hdigit in Hw. fold nxt in Hw.
  destruct (int part) as [k|msg]; [|discriminate]. exists k.
  set (l2 := ensure_index l k nxt) in *.
  assert (Hlen : List.length l2 = Nat.max (List.length l) (S k))
    by apply ensure_index_length.
  assert (Hshape : forall c,
            walked_value (walk (next_part :: after) value (list_get l2 k)) = Some c ->
            r = JList (list_set l2 k c) ->
            exists l', Parsed k = Parsed k /\ r = JList l' /\
              List.length l' = Nat.max (List.length l) (S k) /\
              (forall j, (j < List.length l)%nat -> j <> k ->
                         nth_error l' j = nth_error l j) /\
              (forall j, (List.length l <= j < k)%nat ->
                         nth_error l' j = Some (empty_for nxt)) /\
              (exists e, nth_error l' k = Some e /\ kind_is nxt e)).
  { intros c Hc ->. exists (list_set l2 k c). split; [reflexivity|].
    split; [reflexivity|].
    split; [now rewrite list_set_length|].
    split; [|split].
    - intros j Hj Hne. rewrite nth_error_list_set_other by exact Hne.
      now apply nth_error_ensure_index_old.
    - intros j Hj. rewrite nth_error_list_set_other by lia.
      now apply nth_error_ensure_index_pad.
    - exists c. split; [apply nth_error_list_set_same; lia|].
      apply walk_keeps_kind in Hc as [Hl Hd].
      destruct (ensure_index_kind l k nxt) as [Kl Kd]. fold l2 in Kl, Kd.
      split; congruence. }
  destruct (walk (next_part :: after) value (list_get l2 k)) as [c|c|e];
    cbn [walked_value] in Hw, Hshape; [| |discriminate];
    injection Hw as <-; now apply (Hshape c).
Qed.

(** * Further properties of the code *)

(** ** The loop of [unflatten] *)

Lemma unflatten_loop_app d1 d2 separator : forall result,
  unflatten_loop (d1 ++ d2)%list separator result =
  match unflatten_loop d1 separator result with
  | Completed r => unflatten_loop d2 separator r
  | o => o
  end.
Proof.
  induction d1 as [|[key value] d1 IH]; intros result; [reflexivity|].
  rewrite <- app_comm_cons. cbn [unflatten_loop].
  destruct (String.eqb separator ""); [reflexivity|].
  destruct (walk (split separator key) value result); auto.
Qed.

(** X3: once an entry ends the call, by a [return result] in the loop
    or by an exception, the entries after it have no effect; as long as
    none does, the loop goes on from the result so far. *)
Theorem unflatten_app (d1 d2 : dict) (separator : string) :
  unflatten (d1 ++ d2)%list separator =
  match unflatten d1 separator with
  | Completed r => unflatten_loop d2 separator r
  | EarlyReturn r => EarlyReturn r
  | Raise e => Raise e
  end.
Proof.
  unfold unflatten. rewrite unflatten_loop_app.
  now destruct (unflatten_loop d1 separator (JDict [])).
Qed.

Lemma contains_nonempty_sep sep s : contains sep s = false -> sep <> "".
Proof. intros H ->. destruct s; discriminate. Qed.

(** [split] of a text without the separator is the text. *)
Lemma split_no_sep sep s : contains sep s = false -> split sep s = [s].
Proof.
  unfold split. induction s as [|a s IH]; intros H; [reflexivity|].
  cbn [contains] in H. apply orb_false_iff in H as [H1 H2].
  cbn [split_from]. rewrite H1, (IH H2). reflexivity.
Qed.

(** X5: a first key that is digit-only for [isdigit] and holds no
    separator ends the call at once, before any later entry is read: with
    the [ValueError] of [int] when [int] refuses the key, and with the
    empty mapping otherwise, the root not being a list. *)
Theorem unflatten_digit_key
    (key : string) (value : json) (rest : dict) (separator : string) :
  isdigit key = true -> contains separator key = false ->
  unflatten ((key, value) :: rest) separator =
  match int key with
  | Parsed _ => EarlyReturn (JDict [])
  | Invalid msg => Raise (ValueError msg)
  end.
Proof.
  intros Hd Hc. unfold unflatten. cbn [unflatten_loop].
  pose proof (contains_nonempty_sep _ _ Hc) as Hs.
  apply String.eqb_neq in Hs. rewrite Hs.
  rewrite (split_no_sep _ _ Hc), walk_last, Hd.
  now destruct (int key).
Qed.

Lemma unflatten_loop_flat data separator : forall acc,
  NoDup (dict_keys acc ++ dict_keys data) ->
  Forall (fun kv => isdigit (fst kv) = false /\
                    contains separator (fst kv) = false) data ->
  unflatten_loop data separator (JDict acc) =
  Completed (JDict (acc ++ data)%list).
Proof.
  induction data as [|[key value] data IH]; intros acc Hnd Hall.
  - cbn. now rewrite app_nil_r.
  - inversion Hall as [|? ? Hkv Hall']; subst. destruct Hkv as [Hd Hc].
    cbn [fst] in Hd, Hc. cbn [unflatten_loop].
    pose proof (contains_nonempty_sep _ _ Hc) as Hs.
    apply String.eqb_neq in Hs. rewrite Hs.
    rewrite (split_no_sep _ _ Hc), walk_last, Hd.
    cbn [dict_keys map fst] in Hnd.
    rewrite dict_set_fresh
      by (apply NoDup_remove_2 in Hnd; rewrite in_app_iff in Hnd; tauto).
    rewrite IH; [now rewrite <- app_assoc | | exact Hall'].
    rewrite dict_keys_app, <- app_assoc. exact Hnd.
Qed.

(** X6: on a mapping none of whose keys is digit-only for [isdigit] or
    holds the separator, [unflatten] returns the mapping as it is,
    whatever the values are. *)
Theorem unflatten_flat_keys (data : dict) (separator : string) :
  dict_wf data ->
  Forall (fun kv => isdigit (fst kv) = false /\
                    contains separator (fst kv) = false) data ->
  unflatten data separator = Completed (JDict data).
Proof.
  intros Hwf Hall. unfold unflatten.
  now rewrite unflatten_loop_flat.
Qed.

(** ** What [unflatten] builds from key parts *)

Lemma walk_nest parts value :
  parts <> [] ->
  Forall (fun p => isdigit p = false) parts ->
  walk parts value (JDict []) = Stored (nest parts value).
Proof.
  induction parts as [|part [|next_part after] IH]; intros Hne Hall;
    [congruence| |].
  - inversion Hall as [|? ? Hp _]; subst. rewrite walk_last, Hp. reflexivity.
  - inversion Hall as [|? ? Hp Hrest]; subst.
    assert (Hnxt : is_next_index (next_part :: after) = false).
    { cbn [is_next_index]. destruct after; [reflexivity|].
      now inversion Hrest. }
    rewrite walk_step. cbn zeta. rewrite Hp, Hnxt.
    cbn [ensure_key dict_mem dict_set dict_get]. rewrite String.eqb_refl.
    rewrite IH by (try discriminate; exact Hrest).
    reflexivity.
Qed.

(** X7: one key of parts that are not digit-only for [isdigit], joined
    by a separator of one ASCII character they do not hold, gives the
    mappings nested one in the other along the parts, with the value at
    the end. *)
Theorem unflatten_single_key (c : ascii) (parts : list string) (value : json) :
  is_ascii_char c = true ->
  parts <> [] ->
  Forall (fun p => isdigit p = false /\ contains (String c "") p = false)
    parts ->
  unflatten [(concat (String c "") parts, value)] (String c "") =
  Completed (nest parts value).
Proof.
  intros _ Hne Hall. unfold unflatten. cbn [unflatten_loop String.eqb].
  rewrite (split_concat c parts Hne)
    by (eapply Forall_impl; [|exact Hall]; now intros p [_ H]).
  rewrite walk_nest; [reflexivity | exact Hne |].
  eapply Forall_impl; [|exact Hall]. now intros p [H _].
Qed.

Lemma dict_keys_set d k v k' :
  In k' (dict_keys (dict_set d k v)) -> In k' (dict_keys d) \/ k' = k.
Proof.
  induction d as [|[k0 v0] d IH]; cbn [dict_set dict_keys map fst In].
  - intros [H|[]]; auto.
  - destruct (String.eqb k k0); cbn [map fst In]; [tauto|].
    intros [H|H]; [tauto|]. destruct (IH H); auto.
Qed.

Lemma dict_keys_ensure_key d k nxt k' :
  In k' (dict_keys (ensure_key d k nxt)) -> In k' (dict_keys d) \/ k' = k.
Proof.
  unfold ensure_key. destruct (dict_mem k d); [auto | apply dict_keys_set].
Qed.

(** The keys at the root after one entry: those that were there, and
    the first part of the key. *)
Lemma walk_root_keys parts value d d' :
  walked_value (walk parts value (JDict d)) = Some (JDict d') ->
  forall k, In k (dict_keys d') -> In k (dict_keys d) \/ k = hd "" parts.
Proof.
  destruct parts as [|part [|next_part after]].
  - cbn. intros [= <-]. auto.
  - rewrite walk_last.
    destruct (isdigit part);
      [destruct (int part); [|discriminate]; intros [= <-]; auto|].
    intros [= <-] k. apply dict_keys_set.
  - rewrite walk_step. cbn zeta.
    destruct (isdigit part);
      [destruct (int part); [|discriminate]; intros [= <-]; auto|].
    destruct (dict_get part _); [|discriminate].
    destruct (walk _ value _); try discriminate; intros [= <-] k Hk;
      apply dict_keys_set in Hk as [Hk| ->]; auto;
      apply dict_keys_ensure_key in Hk; exact Hk.
Qed.

Lemma unflatten_loop_root_keys data separator : forall d r,
  returned_value (unflatten_loop data separator (JDict d)) = Some (JDict r) ->
  forall k, In k (dict_keys r) ->
    In k (dict_keys d) \/
    exists key, In key (dict_keys data) /\ k = hd "" (split separator key).
Proof.
  induction data as [|[key value] data IH]; intros d r.
  - cbn. intros [= <-]. auto.
  - cbn [unflatten_loop]. destruct (String.eqb separator ""); [discriminate|].
    pose proof (walk_dict_root (split separator key) value d) as Hroot.
    pose proof (walk_root_keys (split separator key) value d) as Hkeys.
    destruct (walk (split separator key) value (JDict d)) as [c|c|e];
      [| |discriminate].
    + destruct c as [| | | | |d1]; try discriminate.
      intros Hr k Hk. destruct (IH d1 r Hr k Hk) as [H|(key' & Hin & ->)].
      * destruct (Hkeys d1 eq_refl k H) as [H'| ->]; [auto|].
        right. exists key. split; [now left | reflexivity].
      * right. exists key'. split; [now right | reflexivity].
    + cbn [returned_value]. intros [= ->] k Hk.
      destruct (Hkeys r eq_refl k Hk) as [H'| ->]; [auto|].
      right. exists key. split; [now left | reflexivity].
Qed.

(** X8: every key at the root of what [unflatten] returns is the first
    part of a key of the input. *)
Theorem unflatten_root_keys
    (data : dict) (separator : string) (r : dict) (k : string) :
  returned_value (unflatten data separator) = Some (JDict r) ->
  In k (dict_keys r) ->
  exists key, In key (dict_keys data) /\ k = hd "" (split separator key).
Proof.
  intros Hr Hk.
  destruct (unflatten_loop_root_keys data separator [] r Hr k Hk) as [[]|H].
  exact H.
Qed.

(** ** [flatten] on its own results *)

Lemma dict_set_wf d k v : dict_wf d -> dict_wf (dict_set d k v).
Proof.
  unfold dict_wf.
  induction d as [|[k0 v0] d IH]; cbn [dict_set dict_keys map fst]; intros H.
  - repeat constructor. intros [].
  - inversion H as [|? ? Hk0 Hd]; subst.
    destruct (String.eqb_spec k k0) as [->|Hne]; cbn [map fst]; [exact H|].
    constructor; [|exact (IH Hd)].
    intros Hin. apply dict_keys_set in Hin as [Hin| ->];
      [exact (Hk0 Hin) | congruence].
Qed.

Lemma dict_update_wf d other : dict_wf d -> dict_wf (dict_update d other).
Proof.
  unfold dict_update. revert d.
  induction other as [|kv other IH]; intros d Hd; [exact Hd|].
  cbn [fold_left]. apply IH. now apply dict_set_wf.
Qed.

Lemma flatten_items_wf separator max_depth current_depth nk l :
  forall i result,
    dict_wf result ->
    dict_wf (flatten_items separator max_depth current_depth nk l i result).
Proof.
  induction l as [|item l IH]; intros i result Hr; [exact Hr|].
  cbn [flatten_items]. apply IH.
  destruct item; (apply dict_set_wf || apply dict_update_wf); exact Hr.
Qed.

Lemma flatten_entry_wf separator max_depth current_depth prefix key value result :
  dict_wf result ->
  dict_wf
    (flatten_entry separator max_depth current_depth prefix key value result).
Proof.
  intros Hr. rewrite flatten_entry_eq. cbn zeta.
  destruct (depth_reached max_depth current_depth);
    [now apply dict_set_wf|].
  destruct value;
    (apply dict_set_wf || apply dict_update_wf || apply flatten_items_wf);
    exact Hr.
Qed.

(** The result of [flatten] holds no key twice. *)
Lemma flatten_wf data separator prefix max_depth current_depth :
  dict_wf (flatten data separator prefix max_depth current_depth).
Proof.
  unfold flatten.
  assert (H : dict_wf []) by constructor.
  revert H. generalize (@nil (string * json)).
  induction data as [|kv data IH]; intros acc Hacc; [exact Hacc|].
  cbn [fold_left]. apply IH. now apply flatten_entry_wf.
Qed.

Lemma flatten_scalars data separator max_depth current_depth : forall acc,
  values_satisfy scalar data ->
  fold_left
    (fun r kv =>
       flatten_entry separator max_depth current_depth ""
         (fst kv) (snd kv) r) data acc =
  dict_update acc data.
Proof.
  unfold dict_update.
  induction data as [|[k v] data IH]; intros acc Hs; [reflexivity|].
  inversion Hs as [|? ? Hv Hs']; subst. cbn [snd] in Hv.
  cbn [fold_left fst snd]. rewrite flatten_entry_eq. cbn zeta.
  change (new_key "" separator k) with k.
  rewrite <- (IH (dict_set acc k v) Hs').
  destruct (depth_reached max_depth current_depth); [reflexivity|].
  destruct v; try reflexivity; discriminate.
Qed.

(** X9: a mapping with unique keys whose values are all scalars is
    returned by [flatten] as it is, whatever the separator and
    [max_depth]; so [flatten], called without [max_depth], gives a
    mapping that a second [flatten] leaves alone. *)
Theorem flatten_idempotent
    (data : dict) (separator prefix : string) (current_depth : Z)
    (separator' : string) (max_depth' : option Z) (current_depth' : Z) :
  flatten (flatten data separator prefix None current_depth)
    separator' "" max_depth' current_depth' =
  flatten data separator prefix None current_depth.
Proof.
  set (flat := flatten data separator prefix None current_depth).
  unfold flatten at 1. rewrite flatten_scalars.
  - apply dict_update_fresh; [apply flatten_wf | auto].
  - apply (flat_scalar_all (JDict data)).
Qed.

(** ** Keys below a prefix *)

Lemma startswith_app pre x y :
  startswith pre x = true -> startswith pre (x ++ y) = true.
Proof.
  revert x. induction pre as [|a pre IH]; intros x; [reflexivity|].
  destruct x as [|b x]; cbn [startswith append]; [discriminate|].
  intros H. apply andb_true_iff in H as [H1 H2].
  now rewrite H1, (IH x H2).
Qed.

Lemma startswith_refl pre : startswith pre pre = true.
Proof.
  induction pre as [|a pre IH]; cbn [startswith]; [reflexivity|].
  now rewrite Ascii.eqb_refl, IH.
Qed.

Lemma dict_set_keys_start pre d k v :
  keys_start pre d -> startswith pre k = true ->
  keys_start pre (dict_set d k v).
Proof.
  unfold keys_start. intros Hd Hk.
  induction d as [|[k0 v0] d IH]; cbn [dict_set].
  - repeat constructor. exact Hk.
  - inversion Hd as [|? ? H0 Hd']; subst.
    destruct (String.eqb k k0); constructor; auto.
Qed.

Lemma dict_update_keys_start pre d other :
  keys_start pre d -> keys_start pre other ->
  keys_start pre (dict_update d other).
Proof.
  unfold dict_update. intros Hd Ho. revert d Hd.
  induction Ho as [|kv other Hkv Ho IH]; intros d Hd; cbn [fold_left];
    [exact Hd|].
  apply IH. now apply dict_set_keys_start.
Qed.

Lemma new_key_prefixed P separator key :
  P <> "" -> new_key P separator key = (P ++ separator) ++ key.
Proof.
  intros HP. unfold new_key. destruct (String.eqb_spec P ""); [congruence|].
  now rewrite append_assoc.
Qed.

Lemma below_prefix_entry separator max_depth depth P key pre v result :
  below_prefix v ->
  P <> "" -> startswith pre (P ++ separator) = true ->
  keys_start pre result ->
  keys_start pre (flatten_entry separator max_depth depth P key v result).
Proof.
  intros Hv HP Hpre Hr. rewrite flatten_entry_eq. cbn zeta.
  rewrite (new_key_prefixed P separator key HP).
  assert (Hnk : startswith pre ((P ++ separator) ++ key) = true)
    by now apply startswith_app.
  assert (Hne : (P ++ separator) ++ key <> "")
    by now apply append_nonempty_l, append_nonempty_l.
  assert (Hsub : startswith pre (((P ++ separator) ++ key) ++ separator) = true)
    by now apply startswith_app.
  destruct (depth_reached max_depth depth);
    [now apply dict_set_keys_start|].
  destruct v; cbn [below_prefix] in Hv;
    try (now apply dict_set_keys_start).
  - now apply Hv.
  - apply dict_update_keys_start; [exact Hr | now apply Hv].
Qed.

Lemma below_prefix_all : forall v, below_prefix v.
Proof.
  induction v as [| b | n | s | l IH | d IH] using json_ind;
    cbn [below_prefix]; auto.
  - intros separator nk pre max_depth depth i result Hnk Hpre.
    revert i result.
    induction IH as [|item l Hitem _ IHl]; intros i result Hr;
      cbn [flatten_items]; [exact Hr|].
    apply IHl.
    assert (Hlk : startswith pre (nk ++ separator ++ str i) = true)
      by (rewrite <- append_assoc; now apply startswith_app).
    destruct item; cbn [below_prefix] in Hitem;
      try (now apply dict_set_keys_start).
    + apply dict_update_keys_start; [exact Hr|].
      unfold flatten. cbn [fold_left fst snd].
      apply below_prefix_entry; [exact Hitem | exact Hnk | exact Hpre |].
      constructor.
    + apply dict_update_keys_start; [exact Hr|].
      apply Hitem; [now apply append_nonempty_l|].
      rewrite !append_assoc. rewrite <- (append_assoc nk separator).
      now apply startswith_app.
  - intros separator P pre max_depth depth HP Hpre. unfold flatten.
    assert (Hnil : keys_start pre []) by constructor.
    revert Hnil. generalize (@nil (string * json)) as acc.
    induction IH as [|kv d Hkv _ IHd]; intros acc Hacc; cbn [fold_left];
      [exact Hacc|].
    apply IHd. now apply below_prefix_entry.
Qed.

(** X10: with a prefix that is not empty, every key of the result of
    [flatten] starts with the prefix followed by the separator, for every
    tree and every [max_depth]. *)
Theorem flatten_keys_prefix
    (data : dict) (separator prefix : string) (max_depth : option Z)
    (current_depth : Z) :
  prefix <> "" ->
  Forall (fun kv => startswith (prefix ++ separator) (fst kv) = true)
    (flatten data separator prefix max_depth current_depth).
Proof.
  intros HP.
  apply (below_prefix_all (JDict data) separator prefix
           (prefix ++ separator) max_depth current_depth HP).
  apply startswith_refl.
Qed.

Lemma flatten_keys_prefix_witness :
  "cfg" <> "" /\
  Forall (fun kv => startswith "cfg/" (fst kv) = true)
    (flatten [("a", JList [JNum 1; JDict [("b", JNull)]]); ("c", JStr "x")]
       "/" "cfg" None 0).
Proof.
  assert (H : "cfg" <> "") by discriminate.
  split; [exact H|].
  exact (flatten_keys_prefix
           [("a", JList [JNum 1; JDict [("b", JNull)]]); ("c", JStr "x")]
           "/" "cfg" None 0 H).
Defined.

(** ** A limit beyond the depth of the tree *)

Lemma deep_enough_entry separator m depth P key v result :
  deep_enough v ->
  (depth + Z.of_nat (levels v) <= m)%Z ->
  flatten_entry separator (Some m) depth P key v result =
  flatten_entry separator None depth P key v result.
Proof.
  intros Hv Hm. rewrite !flatten_entry_eq. cbn zeta. cbn [depth_reached].
  destruct v as [| b | n | s | l | d];
    try (destruct (m <=? depth)%Z; reflexivity);
    cbn [levels deep_enough] in Hv, Hm;
    (destruct (Z.leb_spec m depth) as [Hle|_]; [lia|]).
  - apply Hv. unfold item_levels. lia.
  - f_equal. apply Hv. lia.
Qed.

Lemma deep_enough_all : forall v, deep_enough v.
Proof.
  induction v as [| b | n | s | l IH | d IH] using json_ind;
    cbn [deep_enough]; auto.
  - intros separator nk m depth.
    induction IH as [|item l Hitem _ IHl]; intros i result Hm;
      [reflexivity|].
    cbn [map list_max fold_right] in Hm. fold (list_max (map item_levels l)) in Hm.
    cbn [flatten_items]. rewrite IHl by lia. f_equal.
    destruct item as [| | | | l' | d']; try reflexivity;
      unfold item_levels in Hm; cbn [is_dict] in Hm.
    + f_equal. unfold flatten. cbn [fold_left fst snd].
      apply deep_enough_entry; [exact Hitem | lia].
    + f_equal. cbn [deep_enough] in Hitem. apply Hitem.
      cbn [levels Nat.pred] in Hm. lia.
  - intros separator P m depth Hm. unfold flatten.
    generalize (@nil (string * json)) as acc.
    induction IH as [|kv d Hkv _ IHd]; intros acc; [reflexivity|].
    cbn [map list_max fold_right] in Hm.
    fold (list_max (map (fun kv => levels (snd kv)) d)) in Hm.
    cbn [fold_left]. rewrite deep_enough_entry by (try exact Hkv; lia).
    apply IHd. lia.
Qed.

(** X11: a [max_depth] that is at least the current depth plus the
    levels of nesting of the values changes nothing: the result is the
    one without [max_depth]. *)
Theorem flatten_max_depth_beyond
    (data : dict) (separator prefix : string) (m current_depth : Z) :
  (current_depth + Z.of_nat (list_max (map (fun kv => levels (snd kv)) data))
   <= m)%Z ->
  flatten data separator prefix (Some m) current_depth =
  flatten data separator prefix None current_depth.
Proof. apply (deep_enough_all (JDict data)). Qed.

Lemma flatten_max_depth_beyond_witness :
  let data := [("a", JDict [("b", JDict [("c", JDict [("d", JStr "v")])])])] in
  (0 + Z.of_nat (list_max (map (fun kv => levels (snd kv)) data)) <= 3)%Z /\
  flatten data "." "" (Some 3%Z) 0 = flatten data "." "" None 0.
Proof.
  cbn zeta.
  assert (H : (0 + Z.of_nat
                     (list_max
                        (map (fun kv => levels (snd kv))
                           [("a", JDict [("b", JDict [("c", JDict [("d", JStr "v")])])])]))
               <= 3)%Z) by (cbn; lia).
  split; [exact H|].
  exact (flatten_max_depth_beyond _ "." "" 3 0 H).
Defined.

(** ** One entry per scalar *)


Lemma dict_set_length d k v :
  (List.length (dict_set d k v) <= S (List.length d))%nat.
Proof.
  induction d as [|[k0 v0] d IH]; cbn [dict_set List.length]; [lia|].
  destruct (String.eqb k k0); cbn [List.length]; lia.
Qed.

Lemma dict_update_length other : forall d,
  (List.length (dict_update d other)
   <= List.length d + List.length other)%nat.
Proof.
  unfold dict_update.
  induction other as [|kv other IH]; intros d; cbn [fold_left List.length];
    [lia|].
  specialize (IH (dict_set d (fst kv) (snd kv))).
  pose proof (dict_set_length d (fst kv) (snd kv)). lia.
Qed.

Lemma under_length k E : List.length (under k E) = List.length E.
Proof. apply length_map. Qed.

Lemma few_entries_entry separator depth P key v result :
  few_entries v ->
  (List.length (flatten_entry separator None depth P key v result)
   <= List.length result + List.length (leaves v))%nat.
Proof.
  intros Hv. rewrite flatten_entry_eq. cbn zeta. cbn [depth_reached].
  destruct v as [| b | n | s | l | d]; cbn [few_entries] in Hv;
    try (cbn [leaves List.length];
         pose proof (dict_set_length result (new_key P separator key) JNull);
         rewrite Nat.add_1_r; apply dict_set_length).
  - rewrite leaves_JList. apply Hv.
  - rewrite leaves_JDict.
    etransitivity; [apply dict_update_length|].
    specialize (Hv separator (new_key P separator key) (depth + 1)%Z). lia.
Qed.

Lemma few_entries_all : forall v, few_entries v.
Proof.
  induction v as [| b | n | s | l IH | d IH] using json_ind;
    cbn [few_entries]; auto.
  - intros separator nk depth.
    induction IH as [|item l Hitem _ IHl]; intros i result;
      cbn [flatten_items leaves_items]; [lia|].
    match goal with
    | |- (List.length (flatten_items _ _ _ _ _ _ ?r) <= _)%nat =>
        assert (Hr : (List.length r
                      <= List.length result + List.length (leaves item))%nat)
    end.
    { destruct item as [| | | | l' | d'];
        try (cbn [leaves List.length]; rewrite Nat.add_1_r;
             apply dict_set_length).
      - etransitivity; [apply dict_update_length|].
        apply Nat.add_le_mono_l. unfold flatten. cbn [fold_left fst snd].
        apply (few_entries_entry separator (depth + 1) nk (str i) (JList l') []).
        exact Hitem.
      - etransitivity; [apply dict_update_length|].
        apply Nat.add_le_mono_l. rewrite leaves_JDict. apply Hitem. }
    etransitivity; [apply IHl|].
    rewrite length_app, under_length. lia.
  - intros separator P depth. unfold flatten.
    enough (H : forall acc,
               (List.length
                  (fold_left
                     (fun r kv =>
                        flatten_entry separator None depth P (fst kv) (snd kv) r)
                     d acc)
                <= List.length acc + List.length (leaves_dict d))%nat)
      by apply (H []).
    induction IH as [|[k v] d Hkv _ IHd]; intros acc; cbn [fold_left];
      [cbn; lia|].
    etransitivity; [apply IHd|].
    rewrite leaves_dict_cons, length_app, under_length.
    pose proof (few_entries_entry separator depth P k v acc Hkv).
    cbn [fst snd]. lia.
Qed.

(** X13: without [max_depth], [flatten] returns at most one entry for
    each scalar of the tree; a tree that holds no scalar, however its
    empty mappings and sequences are nested, gives the empty mapping. *)
Theorem flatten_at_most_leaves
    (data : dict) (separator prefix : string) (current_depth : Z) :
  (List.length (flatten data separator prefix None current_depth)
   <= List.length (leaves (JDict data)))%nat /\
  (leaves (JDict data) = [] ->
   flatten data separator prefix None current_depth = []).
Proof.
  pose proof (few_entries_all (JDict data) separator prefix current_depth)
    as H.
  rewrite <- leaves_JDict in H. split; [exact H|].
  intros E. rewrite E in H.
  destruct (flatten data separator prefix None current_depth);
    [reflexivity | cbn in H; lia].
Qed.

Lemma flatten_at_most_leaves_witness :
  let data := [("a", JDict []); ("b", JList [JList []; JDict []])] in
  leaves (JDict data) = [] /\ flatten data "." "" None 0 = [].
Proof.
  cbn zeta. split; [reflexivity|].
  apply (proj2 (flatten_at_most_leaves
                  [("a", JDict []); ("b", JList [JList []; JDict []])]
                  "." "" 0)).
  reflexivity.
Defined.

End Builtins.

(** * The builtins on ASCII *)

Lemma ascii_builtins : builtins_spec ascii_isdigit ascii_int.
Proof.
  split; [reflexivity|]. intros s Hd Hlen. unfold ascii_int.
  rewrite Hd. now rewrite (proj2 (Nat.leb_le _ _) Hlen).
Qed.

(** The parts of an ASCII key are ASCII and no longer than the key. *)
Lemma split_from_short sep s : forall skip n,
  is_ascii s = true -> (String.length s <= n)%nat ->
  Forall (fun p => is_ascii p = true /\ (String.length p <= n)%nat)
    (split_from sep s skip).
Proof.
  induction s as [|a s IH]; intros skip n Ha Hn.
  - cbn. repeat constructor. lia.
  - cbn [is_ascii] in Ha. apply andb_true_iff in Ha as [Ha Hs].
    cbn [String.length] in Hn. cbn [split_from].
    destruct skip as [|k]; [|apply IH; [exact Hs | lia]].
    destruct (startswith sep (String a s)).
    + constructor; [split; [reflexivity | cbn; lia]|].
      apply IH; [exact Hs | lia].
    + specialize (IH 0%nat (Nat.pred n) Hs ltac:(lia)).
      destruct (split_from sep s 0) as [|p ps].
      * constructor; [|constructor].
        split; [cbn [is_ascii]; now rewrite Ha | cbn [String.length]; lia].
      * inversion IH as [|? ? Hhd Hps]; subst. destruct Hhd as [Hp Hlen].
        constructor.
        -- split; [cbn [is_ascii]; now rewrite Ha, Hp
                  | cbn [String.length]; lia].
        -- eapply Forall_impl; [|exact Hps]. cbn beta. intros q [? ?].
           split; [assumption | lia].
Qed.

Lemma split_short sep s :
  short_ascii s = true ->
  Forall (fun p => short_ascii p = true) (split sep s).
Proof.
  unfold short_ascii. intros H. apply andb_true_iff in H as [Ha Hn].
  apply Nat.leb_le in Hn.
  eapply Forall_impl; [|apply (split_from_short sep s 0 _ Ha Hn)].
  cbn beta. intros p [Hp Hlen]. rewrite Hp.
  now apply Nat.leb_le in Hlen.
Qed.

Section OnAscii.
Variable isdigit : string -> bool.
Variable int : string -> parsed.
Hypothesis builtins : builtins_spec isdigit int.

Lemma isdigit_short s : short_ascii s = true -> isdigit s = ascii_isdigit s.
Proof.
  unfold short_ascii. intros H. apply andb_true_iff in H as [Ha _].
  now apply (proj1 builtins).
Qed.

Lemma int_short s :
  short_ascii s = true -> ascii_isdigit s = true -> int s = ascii_int s.
Proof.
  unfold short_ascii. intros H Hd. apply andb_true_iff in H as [_ Hn].
  unfold ascii_int. rewrite Hd, Hn. apply Nat.leb_le in Hn.
  now apply (proj2 builtins).
Qed.

Lemma is_next_index_short rest :
  Forall (fun p => short_ascii p = true) rest ->
  is_next_index isdigit rest = is_next_index ascii_isdigit rest.
Proof.
  intros H. destruct rest as [|next_part [|x after]]; try reflexivity.
  cbn [is_next_index]. apply isdigit_short. now inversion H.
Qed.

(** On ASCII parts that [int] accepts by their length, the walk is the
    one with the builtins cut down to ASCII. *)
Lemma walk_ascii parts : forall value current,
  Forall (fun p => short_ascii p = true) parts ->
  walk isdigit int parts value current =
  walk ascii_isdigit ascii_int parts value current.
Proof.
  induction parts as [|part rest IH]; intros value current Hall;
    [reflexivity|].
  inversion Hall as [|? ? Hpart Hrest]; subst.
  destruct rest as [|next_part after].
  - rewrite !walk_last. rewrite (isdigit_short part Hpart).
    destruct (ascii_isdigit part) eqn:Hd; [|reflexivity].
    now rewrite (int_short part Hpart Hd).
  - rewrite !walk_step. cbn zeta.
    rewrite (isdigit_short part Hpart), (is_next_index_short _ Hrest).
    destruct (ascii_isdigit part) eqn:Hd.
    + rewrite (int_short part Hpart Hd).
      destruct (ascii_int part); [|reflexivity].
      destruct current; try reflexivity. now rewrite IH.
    + destruct current; try reflexivity.
      destruct (dict_get part _); [|reflexivity]. now rewrite IH.
Qed.

Lemma unflatten_loop_ascii data separator : forall result,
  forallb (fun kv => short_ascii (fst kv)) data = true ->
  unflatten_loop isdigit int data separator result =
  unflatten_loop ascii_isdigit ascii_int data separator result.
Proof.
  induction data as [|[key value] data IH]; intros result H; [reflexivity|].
  cbn [forallb fst] in H. apply andb_true_iff in H as [Hk Hd].
  cbn [unflatten_loop]. destruct (String.eqb separator ""); [reflexivity|].
  rewrite (walk_ascii _ _ _ (split_short separator key Hk)).
  destruct (walk ascii_isdigit ascii_int _ value result); auto.
Qed.

Lemma unflatten_ascii data separator :
  forallb (fun kv => short_ascii (fst kv)) data = true ->
  unflatten isdigit int data separator =
  unflatten ascii_isdigit ascii_int data separator.
Proof. apply unflatten_loop_ascii. Qed.

End OnAscii.

(** * The concrete cases *)

(** ** Round trip *)

(** C1, as stated, fails: a tree whose only key is ["a"], free of the
    separator ["."], with an empty mapping below it, flattens to the empty
    flat mapping, and [unflatten] returns the empty mapping for it,
    whatever the builtins. *)
Lemma roundtrip_loses_empty_mapping :
  let tree := [("a", JDict [])] in
  keys_avoid "." (JDict tree) = true /\
  (forall isdigit int,
     unflatten isdigit int (flatten tree "." "" None 0) "." =
     Completed (JDict [])) /\
  Completed (JDict []) <> Completed (JDict tree).
Proof. cbn zeta. repeat split. discriminate. Qed.

Lemma roundtrip_witness :
  let tree :=
    [("user",
      JDict [("name", JStr "John"); ("age", JNum 30);
             ("addresses",
              JList [JDict [("city", JStr "NYC")];
                     JList [JDict [("city", JStr "LA")]]])])] in
  builtins_spec ascii_isdigit ascii_int /\
  is_ascii_char "/" = true /\
  is_digit_char "/" = false /\
  rebuildable_root ascii_isdigit "/" tree = true /\
  indices_fit (JDict tree) = true /\
  unflatten ascii_isdigit ascii_int (flatten tree "/" "" None 0) "/" =
  Completed (JDict tree).
Proof.
  cbn zeta. split; [exact ascii_builtins|].
  do 4 (split; [reflexivity|]).
  apply (roundtrip ascii_isdigit ascii_int ascii_builtins "/"); reflexivity.
Defined.

(** ** Conflicting and malformed keys *)

(** C2, on the code: the first key makes ["a"] a sequence, the second
    asks for a mapping there, and the walk over the second key ends in a
    [TypeError], because the branch for a part that is not digit-only has
    no [isinstance] test.  And the flat mapping [flatten] returns for
    [{"items": ["a"]}] takes an early [return result]. *)
Theorem unflatten_conflict_raises
    (isdigit : string -> bool) (int : string -> parsed) :
  builtins_spec isdigit int ->
  unflatten isdigit int [("a.0.x", JNum 1); ("a.b.x", JNum 2)] "." =
  Raise TypeError /\
  unflatten isdigit int (flatten [("items", JList [JStr "a"])] "." "" None 0)
    "." =
  EarlyReturn (JDict [("items", JDict [])]).
Proof.
  intros H. rewrite !(unflatten_ascii isdigit int H) by reflexivity.
  split; reflexivity.
Qed.

Lemma unflatten_conflict_raises_witness :
  builtins_spec ascii_isdigit ascii_int /\
  unflatten ascii_isdigit ascii_int
    [("a.0.x", JNum 1); ("a.b.x", JNum 2)] "." = Raise TypeError.
Proof.
  split; [exact ascii_builtins|].
  exact (proj1 (unflatten_conflict_raises _ _ ascii_builtins)).
Defined.

(** C3, on the code: the look-ahead never reads the last part, so
    ["items"] becomes a mapping, and the digit-only last part ["0"] ends
    the call with what was built.  On a sequence the last part does pad
    with [None] and store. *)
Theorem unflatten_items_gap
    (isdigit : string -> bool) (int : string -> parsed) :
  builtins_spec isdigit int ->
  unflatten isdigit int [("items.0", JStr "a"); ("items.2", JStr "c")] "." =
  EarlyReturn (JDict [("items", JDict [])]) /\
  walk isdigit int ["2"] (JStr "c") (JList [JStr "a"]) =
  Stored (JList [JStr "a"; JNull; JStr "c"]).
Proof.
  intros H. rewrite (unflatten_ascii isdigit int H) by reflexivity.
  rewrite (walk_ascii isdigit int H) by (repeat constructor).
  split; reflexivity.
Qed.

Lemma unflatten_items_gap_witness :
  builtins_spec ascii_isdigit ascii_int /\
  unflatten ascii_isdigit ascii_int
    [("items.0", JStr "a"); ("items.2", JStr "c")] "." =
  EarlyReturn (JDict [("items", JDict [])]).
Proof.
  split; [exact ascii_builtins|].
  exact (proj1 (unflatten_items_gap _ _ ascii_builtins)).
Defined.

(** ** Growing a sequence on the way down *)

(** C6, as stated, fails: on the way to index 2 of an empty sequence the
    positions 0 and 1 are filled with empty mappings, not with [None]. *)
Lemma intermediate_padding_not_null :
  exists l',
    (forall isdigit int,
       builtins_spec isdigit int ->
       walk isdigit int ["2"; "b"; "c"] (JNum 1) (JList []) =
       Stored (JList l') /\
       unflatten isdigit int [("a.2.b.c", JNum 1)] "." =
       Completed (JDict [("a", JList l')])) /\
    nth_error l' 0 = Some (JDict []) /\
    JDict [] <> JNull.
Proof.
  exists [JDict []; JDict []; JDict [("b", JDict [("c", JNum 1)])]].
  split; [|split; [reflexivity | discriminate]].
  intros isdigit int H.
  rewrite (unflatten_ascii isdigit int H) by reflexivity.
  rewrite (walk_ascii isdigit int H) by (repeat constructor).
  split; reflexivity.
Qed.

Lemma walk_digit_part_witness :
  ascii_isdigit "3" = true /\
  let nxt := is_next_index ascii_isdigit ["k"; "0"] in
  exists k l',
    ascii_int "3" = Parsed k /\
    JList [JStr "x"; JDict []; JDict []; JDict [("k", JDict [])]] = JList l' /\
    List.length l' = Nat.max 1 (S k) /\
    (forall j, (j < 1)%nat -> j <> k ->
               nth_error l' j = nth_error [JStr "x"] j) /\
    (forall j, (1 <= j < k)%nat -> nth_error l' j = Some (empty_for nxt)) /\
    (exists e, nth_error l' k = Some e /\ kind_is nxt e).
Proof.
  split; [reflexivity|].
  exact (walk_digit_part ascii_isdigit ascii_int "3" "k" ["0"] (JNum 1)
           [JStr "x"]
           (JList [JStr "x"; JDict []; JDict []; JDict [("k", JDict [])]])
           eq_refl eq_refl).
Defined.

(** ** Root of the result, and input that is not a mapping *)

Lemma unflatten_returns_mapping_witness :
  unflatten ascii_isdigit ascii_int [("items.0", JStr "a")] "." =
  EarlyReturn (JDict [("items", JDict [])]) /\
  exists d, JDict [("items", JDict [])] = JDict d.
Proof.
  split; [reflexivity|].
  apply (unflatten_returns_mapping ascii_isdigit ascii_int
           [("items.0", JStr "a")] ".").
  right. reflexivity.
Defined.

Lemma process_file_flatten_shape_witness :
  is_dict (JList [JNum 1; JNum 2; JNum 3]) = false /\
  process_file ascii_isdigit ascii_int (JList [JNum 1; JNum 2; JNum 3])
    "flatten" "." None =
  Raise (ValueError "Input must be a JSON object for flatten mode").
Proof.
  split; [reflexivity|].
  apply (process_file_flatten_shape ascii_isdigit ascii_int
           (JList [JNum 1; JNum 2; JNum 3])).
  reflexivity.
Defined.

(** ** Further properties *)

Lemma unflatten_digit_key_witness :
  ascii_isdigit "2024" = true /\ contains "." "2024" = false /\
  unflatten ascii_isdigit ascii_int
    [("2024", JStr "y"); ("name", JStr "n")] "." =
  EarlyReturn (JDict []).
Proof.
  split; [reflexivity|]. split; [reflexivity|].
  etransitivity;
    [apply (unflatten_digit_key ascii_isdigit ascii_int "2024"); reflexivity
    | reflexivity].
Defined.

Lemma unflatten_flat_keys_witness :
  let data := [("name", JStr "n"); ("tags", JList [JStr "a"; JNull])] in
  dict_wf data /\
  Forall (fun kv => ascii_isdigit (fst kv) = false /\
                    contains "." (fst kv) = false) data /\
  unflatten ascii_isdigit ascii_int data "." = Completed (JDict data).
Proof.
  cbn zeta.
  assert (H1 : dict_wf [("name", JStr "n"); ("tags", JList [JStr "a"; JNull])])
    by (apply keys_unique_NoDup; reflexivity).
  assert (H2 : Forall (fun kv => ascii_isdigit (fst kv) = false /\
                                 contains "." (fst kv) = false)
                 [("name", JStr "n"); ("tags", JList [JStr "a"; JNull])])
    by (repeat constructor).
  split; [exact H1|]. split; [exact H2|].
  exact (unflatten_flat_keys ascii_isdigit ascii_int _ "." H1 H2).
Defined.

Lemma unflatten_single_key_witness :
  is_ascii_char "/" = true /\
  ["a"; "b1"; "c"] <> [] /\
  Forall (fun p => ascii_isdigit p = false /\ contains "/" p = false)
    ["a"; "b1"; "c"] /\
  unflatten ascii_isdigit ascii_int [("a/b1/c", JNum 5)] "/" =
  Completed (JDict [("a", JDict [("b1", JDict [("c", JNum 5)])])]).
Proof.
  assert (H1 : ["a"; "b1"; "c"] <> []) by discriminate.
  assert (H2 : Forall (fun p => ascii_isdigit p = false /\
                                contains "/" p = false)
                 ["a"; "b1"; "c"]) by (repeat constructor).
  split; [reflexivity|]. split; [exact H1|]. split; [exact H2|].
  exact (unflatten_single_key ascii_isdigit ascii_int "/" ["a"; "b1"; "c"]
           (JNum 5) eq_refl H1 H2).
Defined.

Lemma unflatten_root_keys_witness :
  returned_value
    (unflatten ascii_isdigit ascii_int
       [("user.name", JStr "J"); ("user.0", JNum 1)] ".") =
  Some (JDict [("user", JDict [("name", JStr "J")])]) /\
  exists key,
    In key (dict_keys [("user.name", JStr "J"); ("user.0", JNum 1)]) /\
    "user" = hd "" (split "." key).
Proof.
  split; [reflexivity|].
  apply (unflatten_root_keys ascii_isdigit ascii_int
           [("user.name", JStr "J"); ("user.0", JNum 1)]
           "." [("user", JDict [("name", JStr "J")])] "user").
  - reflexivity.
  - left. reflexivity.
Defined.

